(** * Ascle medical chatbot: sampling decoder and prompt assembly

    A shallow embedding of [src/Ascle/medical_chatbot.py]:
    - the sampling policy written inline in [sample_decode] (temperature,
      softmax, descending sort, top-p mask, top-k cut, renormalisation,
      multinomial draw, gather),
    - the generator [sample_decode] itself, as the trace of texts it yields
      together with the way it ends,
    - [generate_prompt_with_history], the greedy history packer,
    - [answer_generation] and the module-level expression that post-processes
      its result.

    Conventions.  Tensor entries are rationals and the special values of
    the floats are modelled (see [fval]).  The sampling step computes with
    exact rationals; the top-p filter, whose outcome depends on rounding,
    is also given in the tensor's floating-point format
    ([apply_top_p_with]) and the properties of the filter are proved
    there.  The tokenizer, the model and the exponential are parameters.
    Python exceptions are values of [exn]; a computation that may raise
    returns a [result]. *)

From Stdlib Require Import Ascii String.
From Stdlib Require Import List Bool Arith ZArith QArith Qround Qpower Lia Lqa.
From Stdlib Require Import Sorting.Mergesort Sorting.Sorted Sorting.Permutation.
From Stdlib Require Import Orders RelationClasses Morphisms Setoid.
Import ListNotations.

Local Open Scope Q_scope.

(** ** Exceptions and results *)

(** The exceptions the embedded code can raise, named after the Python
    exception and the call that raises it. *)
Inductive exn : Type :=
| RuntimeError_topk          (* torch.topk: selected index k out of range *)
| IndexError_min             (* torch.min over a dimension of size 0 *)
| RuntimeError_multinomial   (* torch.multinomial: inf, nan, negative entry or zero sum *)
| ModelError                 (* anything raised by the model call *)
| TypeError_unpack_None      (* [prompt, inputs = None] *)
| IndexError_empty.          (* [[][-1]] *)

Inductive result (A : Type) : Type :=
| Ok (a : A)
| Raise (e : exn).

Arguments Ok {A} a.
Arguments Raise {A} e.

Definition bind {A B : Type} (r : result A) (k : A -> result B) : result B :=
  match r with
  | Ok a => k a
  | Raise e => Raise e
  end.

Declare Scope result_scope.
Delimit Scope result_scope with result.
Notation "x <- r ;; k" := (bind r (fun x => k))
  (at level 61, r at next level, right associativity) : result_scope.
Notation "' p <- r ;; k" := (bind r (fun p => k))
  (at level 61, p pattern, r at next level, right associativity) : result_scope.

Definition result_map {A B : Type} (f : A -> B) (r : result A) : result B :=
  match r with
  | Ok a => Ok (f a)
  | Raise e => Raise e
  end.

(** ** Rational helpers *)

Definition Qlt_bool (x y : Q) : bool := negb (Qle_bool y x).

(** [x.sum()] *)
Definition Qsum (l : list Q) : Q := fold_right Qplus 0 l.

(** ** Tensor entries with the float special values

    A logit is a finite number, an infinity or NaN.  Probabilities that
    come out of [softmax] are finite or the whole tensor is NaN; the latter
    is [None] in [option (list Q)]. *)
Inductive fval : Type :=
| Fin (q : Q)
| PInf
| NInf
| NaN.

(** [x / t] for a finite Python float [t], IEEE 754 style: a finite nonzero
    value over zero is an infinity, zero over zero is NaN.  A finite
    quotient too large for the format, which the float division turns into
    an infinity, is kept finite here. *)
Definition fdiv (x : fval) (t : Q) : fval :=
  match x with
  | Fin q =>
      if Qeq_bool t 0 then
        if Qeq_bool q 0 then NaN
        else if Qlt_bool 0 q then PInf else NInf
      else Fin (q / t)
  | PInf => if Qlt_bool t 0 then NInf else PInf
  | NInf => if Qlt_bool t 0 then PInf else NInf
  | NaN => NaN
  end.

Section Sampler.

(** The exponential on finite inputs (a float result is a rational). *)
Variable exp : Q -> Q.

(** [exp] of one entry; [None] where the softmax of the whole tensor is NaN
    (a NaN entry, or [+inf], whose shifted value [inf - inf] is NaN). *)
Definition fexp (x : fval) : option Q :=
  match x with
  | Fin q => Some (exp q)
  | NInf => Some 0
  | PInf => None
  | NaN => None
  end.

Fixpoint all_some {A : Type} (l : list (option A)) : option (list A) :=
  match l with
  | [] => Some []
  | None :: _ => None
  | Some a :: r =>
      match all_some r with
      | Some r' => Some (a :: r')
      | None => None
      end
  end.

(** [torch.softmax(logits, dim=-1)]: [exp x_i / sum_j exp x_j]; a zero
    denominator (every entry [-inf]) gives [0/0], a NaN tensor. *)
Definition softmax (logits : list fval) : option (list Q) :=
  match all_some (map fexp logits) with
  | None => None
  | Some es =>
      let s := Qsum es in
      if Qeq_bool s 0 then None else Some (map (fun e => e / s) es)
  end.

End Sampler.

(** ** Descending sort with the permutation, [torch.sort(.., descending=True)] *)

Module ProbOrder <: TotalLeBool.
Definition t : Type := (Q * nat)%type.
Definition leb (x y : t) : bool := Qle_bool (fst y) (fst x).
Lemma leb_total : forall x y, leb x y = true \/ leb y x = true.
Proof.
  intros x y. unfold leb.
  destruct (Qle_bool (fst y) (fst x)) eqn:E; [now left|right].
  apply Qle_bool_iff.
  destruct (Qlt_le_dec (fst x) (fst y)) as [H|H]; [lra|].
  apply Qle_bool_iff in H. congruence.
Qed.
End ProbOrder.

Module ProbSort := Sort ProbOrder.

(** Values sorted from the largest to the smallest, and for each position
    the index the value came from.  Among equal values the order is the one
    of the merge sort; [torch.sort] may order them otherwise. *)
Definition torch_sort (probs : list Q) : list Q * list nat :=
  let s := ProbSort.sort (combine probs (seq 0 (List.length probs))) in
  (map fst s, map snd s).

(** [torch.cumsum] *)
Fixpoint cumsum_from (acc : Q) (l : list Q) : list Q :=
  match l with
  | [] => []
  | x :: r => (acc + x) :: cumsum_from (acc + x) r
  end.

Definition cumsum (l : list Q) : list Q := cumsum_from 0 l.

(** [mask = probs_sum - probs_sort > top_p] *)
Definition top_p_mask (probs_sort : list Q) (top_p : Q) : list bool :=
  map (fun sp : Q * Q => Qlt_bool top_p (fst sp - snd sp))
      (combine (cumsum probs_sort) probs_sort).

(** [probs_sort[mask] = 0.0] *)
Definition masked_zero (probs_sort : list Q) (mask : list bool) : list Q :=
  map (fun pm : Q * bool => if snd pm then 0 else fst pm)
      (combine probs_sort mask).

Definition apply_top_p (probs_sort : list Q) (top_p : Q) : list Q :=
  masked_zero probs_sort (top_p_mask probs_sort top_p).

(** *** The same filter in the tensor's floating-point format

    [torch.cumsum] adds from left to right in an accumulation format and
    stores each running sum in the format of the tensor; the subtraction
    [probs_sum - probs_sort] is rounded to the format of the tensor; the
    Python scalar [top_p] is converted for the comparison.  The three
    roundings are parameters: [racc] for the accumulator, [rnd] for the
    tensor, [rthr] for the scalar.  [apply_top_p] above is this filter with
    the three of them the identity.  Overflow to an infinity is outside the
    model. *)

(** What is assumed of a rounding: it respects equality of rationals, it
    is monotone, it leaves its own results and zero unchanged. *)
Record Rounding (r : Q -> Q) : Prop := {
  round_compat : forall x y, x == y -> r x == r y;
  round_monotone : forall x y, x <= y -> r x <= r y;
  round_idempotent : forall x, r (r x) == r x;
  round_zero : r 0 == 0
}.

(** The values the accumulator takes. *)
Fixpoint running_sum (racc : Q -> Q) (acc : Q) (l : list Q) : list Q :=
  match l with
  | [] => []
  | x :: r => racc (acc + x) :: running_sum racc (racc (acc + x)) r
  end.

(** [torch.cumsum(probs_sort, dim=-1)] *)
Definition cumsum_with (racc rnd : Q -> Q) (l : list Q) : list Q :=
  map rnd (running_sum racc 0 l).

(** [mask = probs_sum - probs_sort > top_p] *)
Definition top_p_mask_with (racc rnd rthr : Q -> Q) (probs_sort : list Q)
    (top_p : Q) : list bool :=
  map (fun sp : Q * Q => Qlt_bool (rthr top_p) (rnd (fst sp - snd sp)))
      (combine (cumsum_with racc rnd probs_sort) probs_sort).

(** [probs_sort[mask] = 0.0] *)
Definition apply_top_p_with (racc rnd rthr : Q -> Q) (probs_sort : list Q)
    (top_p : Q) : list Q :=
  masked_zero probs_sort (top_p_mask_with racc rnd rthr probs_sort top_p).

(** [torch.topk(x, k)]: the [k] largest values; [k] outside [0 .. size]
    raises. *)
Definition topk (x : list Q) (k : Z) : result (list Q) :=
  if ((k <? 0)%Z || (Z.of_nat (List.length x) <? k)%Z)%bool
  then Raise RuntimeError_topk
  else Ok (firstn (Z.to_nat k) (fst (torch_sort x))).

(** [torch.min(x, dim=-1)]: raises on an empty dimension. *)
Fixpoint torch_min (x : list Q) : result Q :=
  match x with
  | [] => Raise IndexError_min
  | a :: r =>
      match r with
      | [] => Ok a
      | _ => match torch_min r with
             | Ok m => Ok (if Qle_bool a m then a else m)
             | Raise e => Raise e
             end
      end
  end.

(** [torch.where(probs_sort < m, 0, probs_sort)] *)
Definition where_below (m : Q) (probs_sort : list Q) : list Q :=
  map (fun p => if Qlt_bool p m then 0 else p) probs_sort.

(** The block under [if top_k is not None]. *)
Definition apply_top_k (probs_sort : list Q) (top_k : option Z) : result (list Q) :=
  match top_k with
  | None => Ok probs_sort
  | Some k =>
      (probs_sort1 <- topk probs_sort k ;;
       min_top_probs_sort <- torch_min probs_sort1 ;;
       Ok (where_below min_top_probs_sort probs_sort))%result
  end.

(** The same block on a NaN tensor of the given size: the values stay NaN,
    only the size checks of [torch.topk] and [torch.min] can be seen. *)
Definition top_k_of_nan (size : nat) (top_k : option Z) : result unit :=
  match top_k with
  | None => Ok tt
  | Some k =>
      if ((k <? 0)%Z || (Z.of_nat size <? k)%Z)%bool then Raise RuntimeError_topk
      else if (k =? 0)%Z then Raise IndexError_min
      else Ok tt
  end.

(** [probs_sort.div_(probs_sort.sum())]: a zero sum makes the quotient
    non-finite ([0/0] or [x/0]), which is [None]. *)
Definition div_sum (probs_sort : list Q) : option (list Q) :=
  let s := Qsum probs_sort in
  if Qeq_bool s 0 then None else Some (map (fun p => p / s) probs_sort).

(** Inverse-CDF choice: the first position whose cumulative weight exceeds
    [r].  Past the end (a draw outside [0,1)) the last position is taken. *)
Fixpoint pick (ws : list Q) (r : Q) : nat :=
  match ws with
  | [] => 0%nat
  | w :: rest =>
      match rest with
      | [] => 0%nat
      | _ => if Qlt_bool r w then 0%nat else S (pick rest (r - w))
      end
  end.

(** [torch.multinomial(w, num_samples=1)] with a uniform draw [u] in
    [0,1).  By torch's contract the weights must be finite, non-negative and
    of non-zero sum, else a [RuntimeError] is raised. *)
Definition multinomial (w : option (list Q)) (u : Q) : result nat :=
  match w with
  | None => Raise RuntimeError_multinomial
  | Some ws =>
      if (existsb (fun p => Qlt_bool p 0) ws || Qeq_bool (Qsum ws) 0)%bool
      then Raise RuntimeError_multinomial
      else Ok (pick ws (u * Qsum ws))
  end.

(** [torch.gather(probs_idx, -1, next_token)] *)
Definition gather (probs_idx : list nat) (j : nat) : nat := nth j probs_idx 0%nat.

(** ** The sampling policy of one decode step *)

Section Sampling.

Variable exp : Q -> Q.

(** What [probs_sort] holds just before [div_], with [probs_idx].  [None]
    for the values stands for a NaN tensor: sorting, masking and [where]
    leave NaN in place (every comparison with NaN is false), while
    [torch.topk] and [torch.min] still check their sizes. *)
Definition filtered_probs (logits : list fval) (temperature top_p : Q)
    (top_k : option Z) : result (option (list Q) * list nat) :=
  (* logits /= temperature *)
  let logits := map (fun x => fdiv x temperature) logits in
  match softmax exp logits with
  | None =>
      (_ <- top_k_of_nan (List.length logits) top_k ;;
       Ok (None, seq 0 (List.length logits)))%result
  | Some probs =>
      let '(probs_sort, probs_idx) := torch_sort probs in
      let probs_sort := apply_top_p probs_sort top_p in
      (probs_sort <- apply_top_k probs_sort top_k ;;
       Ok (Some probs_sort, probs_idx))%result
  end.

(** Lines 89-107 of [sample_decode]: from the logits of the last position
    to [next_token]; [u] is the uniform draw behind [torch.multinomial]. *)
Definition sample_next_token (logits : list fval) (temperature top_p : Q)
    (top_k : option Z) (u : Q) : result nat :=
  ('(probs_sort, probs_idx) <- filtered_probs logits temperature top_p top_k ;;
   next_token <- multinomial
                   (match probs_sort with
                    | Some ps => div_sum ps
                    | None => None
                    end) u ;;
   Ok (gather probs_idx next_token))%result.

End Sampling.

(** ** Python strings and slices *)

Local Open Scope string_scope.

(** The newline escape of the Python literals. *)
Definition nl : string := String "010"%char EmptyString.

(** [x in text] *)
Fixpoint str_in (x text : string) : bool :=
  if String.prefix x text then true
  else match text with
       | EmptyString => false
       | String _ r => str_in x r
       end.

(** [s.replace(old, new)] for a non-empty [old]: occurrences are replaced
    from the left and do not overlap; [skip] counts the characters of a
    match still to be dropped. *)
Fixpoint replace_from (skip : nat) (old new s : string) : string :=
  match s with
  | EmptyString => EmptyString
  | String c r =>
      match skip with
      | S k => replace_from k old new r
      | O =>
          if String.prefix old s
          then new ++ replace_from (String.length old - 1) old new r
          else String c (replace_from 0 old new r)
      end
  end.

(** With an empty [old] Python inserts [new] before every character and
    at the end. *)
Fixpoint insert_everywhere (new s : string) : string :=
  match s with
  | EmptyString => new
  | String c r => new ++ String c (insert_everywhere new r)
  end.

Definition replace (old new s : string) : string :=
  match old with
  | EmptyString => insert_everywhere new s
  | _ => replace_from 0 old new s
  end.

(** [l[-n:]]: the last [n] entries for a positive [n], everything for
    [n = 0] (the slice starts at [-0 = 0]), and [l[|n|:]] for a negative
    [n]. *)
Definition slice_last {A : Type} (l : list A) (n : Z) : list A :=
  if (0 <? n)%Z then skipn (List.length l - Z.to_nat n) l
  else skipn (Z.to_nat (- n)) l.

(** [l[-1]] *)
Definition last_item {A : Type} (l : list A) : result A :=
  match rev l with
  | [] => Raise IndexError_empty
  | a :: _ => Ok a
  end.

(** ** Collaborators *)

(** The tokenizer as the code uses it: [tokenizer(s)["input_ids"]] and
    [tokenizer.decode(ids)]. *)
Record Tokenizer : Type := {
  encode : string -> list nat;
  decode : list nat -> string
}.

(** [tokenizer(s, return_tensors="pt")["input_ids"].size(-1)] *)
Definition token_count (tokenizer : Tokenizer) (s : string) : Z :=
  Z.of_nat (List.length (encode tokenizer s)).

(** [model(input_ids, past_key_values=..)]: the logits of the last position
    and the new cache, or an exception.  [KV] is the type of the cache. *)
Definition Model (KV : Type) : Type :=
  list nat -> option KV -> result (list fval * KV).

(** ** [sample_decode] *)

(** How the generator ends: [return] on a stop word, the [for] running out,
    or an exception leaving the generator. *)
Inductive ending : Type :=
| Stopped
| Exhausted
| Raised (e : exn).

(** A generator consumed to its end: the yielded texts in order, and the
    ending. *)
Record trace : Type := {
  yields : list string;
  final : ending
}.

Definition yield (text : string) (t : trace) : trace :=
  {| yields := text :: yields t; final := final t |}.

Section Decoder.

Variable exp : Q -> Q.
Context {KV : Type}.

(** The local variables that live across iterations. *)
Record DecodeState : Type := {
  input_ids : list nat;
  past_key_values : option KV;
  generated_tokens : list nat
}.

Variable model : Model KV.
Variable tokenizer : Tokenizer.
Variable stop_words : list string.
Variables temperature top_p : Q.
Variable top_k : option Z.

(** The model call of an iteration: the whole input first, then the last
    token with the cache. *)
Definition query_model (st : DecodeState) : result (list fval * KV) :=
  match past_key_values st with
  | None => model (input_ids st) None
  | Some pkv => model (slice_last (input_ids st) 1) (Some pkv)
  end.

(** One iteration of the [for] body up to the [yield]: the yielded text and
    the next state. *)
Definition decode_step (st : DecodeState) (u : Q) : result (string * DecodeState) :=
  ('(logits, pkv) <- query_model st ;;
   next_token <- sample_next_token exp logits temperature top_p top_k u ;;
   let generated := (generated_tokens st ++ [next_token])%list in
   Ok (decode tokenizer generated,
       {| input_ids := (input_ids st ++ [next_token])%list;
          past_key_values := Some pkv;
          generated_tokens := generated |}))%result.

(** [any([x in text for x in stop_words])] *)
Definition hits_stop (text : string) : bool :=
  existsb (fun x => str_in x text) stop_words.

(** The [for i in range(..)] loop with [n] iterations left, at iteration
    [i]; [rng i] is the draw of iteration [i]. *)
Fixpoint decode_loop (rng : nat -> Q) (n i : nat) (st : DecodeState) : trace :=
  match n with
  | O => {| yields := []; final := Exhausted |}
  | S n' =>
      match decode_step st (rng i) with
      | Raise e => {| yields := []; final := Raised e |}
      | Ok (text, st') =>
          if hits_stop text
          then {| yields := [text]; final := Stopped |}
          else yield text (decode_loop rng n' (S i) st')
      end
  end.

(** [k] iterations from iteration [i] that all yield and do not stop: the
    texts yielded and the state reached. *)
Fixpoint advance (rng : nat -> Q) (k i : nat) (st : DecodeState)
    : option (list string * DecodeState) :=
  match k with
  | O => Some ([], st)
  | S k' =>
      match decode_step st (rng i) with
      | Raise _ => None
      | Ok (text, st') =>
          if hits_stop text then None
          else match advance rng k' (S i) st' with
               | Some (ts, st'') => Some (text :: ts, st'')
               | None => None
               end
      end
  end.

End Decoder.

(** The locals before the loop: [generated_tokens = []],
    [past_key_values = None]. *)
Definition initial_state {KV : Type} (ids : list nat) : @DecodeState KV :=
  {| input_ids := ids; past_key_values := None; generated_tokens := [] |}.

(** [sample_decode(input_ids, model, tokenizer, stop_words, max_length,
    temperature, top_p, top_k)]; [range] of a non-positive bound is
    empty. *)
Definition sample_decode (exp : Q -> Q) {KV : Type} (rng : nat -> Q)
    (input_ids : list nat) (model : Model KV) (tokenizer : Tokenizer)
    (stop_words : list string) (max_length : Z)
    (temperature top_p : Q) (top_k : option Z) : trace :=
  decode_loop exp model tokenizer stop_words temperature top_p top_k rng
    (Z.to_nat max_length) 0 (initial_state input_ids).

(** ** [generate_prompt_with_history] *)

(** The fixed preamble, the local [prompt]. *)
Definition prompt : string :=
  "The following is a conversation between a human and an AI assistant named Baize (named after a mythical creature in Chinese folklore). Baize is an open-source AI assistant developed by UCSD and Sun Yat-Sen University. The human and the AI assistant take turns chatting. Human statements start with [|Human|] and AI assistant statements start with [|AI|]. The AI assistant always provides responses in as much detail as possible, and in Markdown format. The AI assistant always declines to engage with topics, questions and instructions related to unethical, controversial, or sensitive issues. Complete the transcript in exactly that format."
  ++ nl ++ "[|Human|]Hello!" ++ nl ++ "[|AI|]Hi!".

(** ["\n[|Human|]{}\n[|AI|]{}".format(x[0], x[1])] *)
Definition format_turn (x : string * string) : string :=
  nl ++ "[|Human|]" ++ fst x ++ nl ++ "[|AI|]" ++ snd x.

(** ["\n[|Human|]{}\n[|AI|]".format(text)] *)
Definition format_text (text : string) : string :=
  nl ++ "[|Human|]" ++ text ++ nl ++ "[|AI|]".

(** The test of the [if]: the string measured is
    [prompt + history_text + x]. *)
Definition fits (tokenizer : Tokenizer) (max_length : Z)
    (history_text x : string) : bool :=
  (token_count tokenizer (prompt ++ history_text ++ x) <=? max_length)%Z.

(** The [for x in history[::-1]] loop over the items still to visit,
    returning [history_text] and [flag]. *)
Fixpoint walk_history (tokenizer : Tokenizer) (max_length : Z)
    (items : list string) (history_text : string) (flag : bool) : string * bool :=
  match items with
  | [] => (history_text, flag)
  | x :: rest =>
      if fits tokenizer max_length history_text x
      then walk_history tokenizer max_length rest (x ++ history_text) true
      else (history_text, flag)
  end.

(** [None] is Python's [None]; otherwise the prompt and its token ids. *)
Definition generate_prompt_with_history (text : string)
    (history : list (string * string)) (tokenizer : Tokenizer)
    (max_length : Z) : option (string * list nat) :=
  let history := (map format_turn history ++ [format_text text])%list in
  let '(history_text, flag) :=
    walk_history tokenizer max_length (rev history) "" false in
  if flag
  then Some (prompt ++ history_text, encode tokenizer (prompt ++ history_text))
  else None.

(** ** [answer_generation] and the module-level script *)

Section Script.

(** The module-level bindings [tokenizer], [model] (the device only moves
    tensors), the exponential and the random draws of the run. *)
Variable exp : Q -> Q.
Context {KV : Type}.
Variable tokenizer : Tokenizer.
Variable model : Model KV.
Variable rng : nat -> Q.

(** The generator is consumed whole by the list comprehension, so an
    exception inside it leaves [answer_generation]; [[-1]] takes the last
    text. *)
Definition answer_generation (base_model adapter_model question : string)
    (max_length : Z) (temperature top_p : Q) (top_k : Z)
    (max_context_length_tokens : Z) : result string :=
  let text := question in
  let history := [] in
  match generate_prompt_with_history text history tokenizer max_length with
  | None => Raise TypeError_unpack_None
  | Some (_, inputs) =>
      let input_ids := slice_last inputs max_context_length_tokens in
      let stop_words := ["[|Human|]"; "[|AI|]"] in
      let generate_result :=
        sample_decode exp rng input_ids model tokenizer stop_words 256
                      1%Q 1%Q (Some 25%Z) in
      match final generate_result with
      | Raised e => Raise e
      | _ => last_item (yields generate_result)
      end
  end.

(** Line 168: [answer_generation(..).replace("\n[|Human|]", "")]. *)
Definition script_answer (base_model adapter_model question : string)
    (max_length : Z) (temperature top_p : Q) (top_k : Z)
    (max_context_length_tokens : Z) : result string :=
  result_map (replace (nl ++ "[|Human|]") "")
    (answer_generation base_model adapter_model question max_length
       temperature top_p top_k max_context_length_tokens).

End Script.

(** ** Concrete collaborators for evaluation *)

(** A stand-in for the exponential with [exp_q 0 = 1]: two to the floor of
    the argument.  The evaluations below only use it at [0]. *)
Definition exp_q (x : Q) : Q := 2 ^ Qfloor x.

(** One token per character, the token id being the character code. *)
Definition char_tokenizer : Tokenizer := {|
  encode := fun s => map nat_of_ascii (list_ascii_of_string s);
  decode := fun ids => string_of_list_ascii (map ascii_of_nat ids)
|}.

(** Logits that put all the mass on [target]. *)
Definition one_hot (V target : nat) : list fval :=
  map (fun i => if Nat.eqb i target then Fin 0 else NInf) (seq 0 V).

(** A model that emits the tokens of [script] one per call, whatever its
    input; the cache counts the calls. *)
Definition scripted_model (script : list nat) : Model nat :=
  fun _ pkv =>
    let pos := match pkv with None => 0%nat | Some p => p end in
    Ok (one_hot 128 (nth pos script 0%nat), S pos).

Definition emits (s : string) : Model nat :=
  scripted_model (encode char_tokenizer s).


(** A model that emits the character [A] and from then on logits that are
    all [-inf]. *)
Definition faulty_model : Model nat :=
  fun _ pkv =>
    match pkv with
    | None => Ok (one_hot 128 65, 1%nat)
    | Some p => Ok (repeat NInf 128, S p)
    end.

(** ** [load_tokenizer_and_model]

    The function only talks to libraries; it is modelled by the device it
    selects and the calls it makes, in order, with their keyword
    arguments. *)

Inductive Device : Type := Cuda | Mps | Cpu.

(** [device_map]: the string ["auto"] or the dictionary [{"": device}]. *)
Inductive DeviceMap : Type :=
| MapAuto
| MapAll (device : Device).

(** Keyword arguments of [LlamaForCausalLM.from_pretrained]; [None] for
    an argument that is not passed.  [float16] is the only dtype used. *)
Record ModelKwargs : Type := {
  load_in_8bit : option bool;
  model_float16 : bool;
  model_device_map : DeviceMap;
  low_cpu_mem_usage : bool
}.

(** Keyword arguments of [PeftModel.from_pretrained]. *)
Record AdapterKwargs : Type := {
  adapter_float16 : bool;
  adapter_device_map : option DeviceMap
}.

Inductive LoadCall : Type :=
| TokenizerFromPretrained (name : string)
| ModelFromPretrained (name : string) (kwargs : ModelKwargs)
| PeftFromPretrained (name : string) (kwargs : AdapterKwargs)
| Half
| Eval.

(** Lines 10-19.  [mps_available] is the result of
    [torch.backends.mps.is_available()], [None] when the probe raises and
    the bare [except] swallows it. *)
Definition select_device (cuda_available : bool)
    (mps_available : option bool) : Device :=
  let device := if cuda_available then Cuda else Cpu in
  match mps_available with
  | Some true => Mps
  | Some false => device
  | None => device
  end.

Definition adapter_calls (adapter_model : option string)
    (kwargs : AdapterKwargs) : list LoadCall :=
  match adapter_model with
  | Some name => [PeftFromPretrained name kwargs]
  | None => []
  end.

(** The calls of lines 21-64 and the device returned at line 65. *)
Definition load_tokenizer_and_model (cuda_available : bool)
    (mps_available : option bool) (base_model : string)
    (adapter_model : option string) (load_8bit : bool)
    : list LoadCall * Device :=
  let device := select_device cuda_available mps_available in
  let loading :=
    match device with
    | Cuda =>
        ModelFromPretrained base_model
          {| load_in_8bit := Some load_8bit; model_float16 := true;
             model_device_map := MapAuto; low_cpu_mem_usage := false |}
        :: adapter_calls adapter_model
             {| adapter_float16 := true; adapter_device_map := None |}
    | Mps =>
        ModelFromPretrained base_model
          {| load_in_8bit := None; model_float16 := true;
             model_device_map := MapAll Mps; low_cpu_mem_usage := false |}
        :: adapter_calls adapter_model
             {| adapter_float16 := true;
                adapter_device_map := Some (MapAll Mps) |}
    | Cpu =>
        ModelFromPretrained base_model
          {| load_in_8bit := None; model_float16 := false;
             model_device_map := MapAll Cpu; low_cpu_mem_usage := true |}
        :: adapter_calls adapter_model
             {| adapter_float16 := false;
                adapter_device_map := Some (MapAll Cpu) |}
    end in
  let halving :=
    if (negb load_8bit
        && negb match device with Cpu => true | _ => false end)%bool
    then [Half] else [] in
  ((TokenizerFromPretrained base_model :: loading ++ halving ++ [Eval])%list,
   device).

(** Whether a call asks for half precision. *)
Definition uses_float16 (c : LoadCall) : bool :=
  match c with
  | ModelFromPretrained _ kw => model_float16 kw
  | PeftFromPretrained _ kw => adapter_float16 kw
  | Half => true
  | _ => false
  end.

(** Whether a call asks for 8-bit weights. *)
Definition asks_8bit (c : LoadCall) : bool :=
  match c with
  | ModelFromPretrained _ kw =>
      match load_in_8bit kw with Some true => true | _ => false end
  | _ => false
  end.

(** A tokenizer with one merge: a closing bracket followed by a newline is
    the single token 256, every other character is its own token. *)
Fixpoint merge_encode (l : list ascii) : list nat :=
  match l with
  | [] => []
  | c :: r =>
      match r with
      | d :: r' =>
          if (Ascii.eqb c "]" && Ascii.eqb d "010")%bool
          then 256%nat :: merge_encode r'
          else nat_of_ascii c :: merge_encode r
      | [] => [nat_of_ascii c]
      end
  end.

Definition merge_decode (ids : list nat) : string :=
  String.concat ""
    (map (fun t => if Nat.eqb t 256 then "]" ++ nl
                   else String (ascii_of_nat t) EmptyString) ids).

Definition merge_tokenizer : Tokenizer := {|
  encode := fun s => merge_encode (list_ascii_of_string s);
  decode := merge_decode
|}.

(** ** Vocabulary for the statements *)

(** Concatenation of a list of strings, [''.join(l)]. *)
Definition join (l : list string) : string := fold_right append "" l.

(** [l[len(l)-k:]], the last [k] entries. *)
Definition lastn {A : Type} (k : nat) (l : list A) : list A :=
  skipn (List.length l - k) l.

(** The k-th largest value of a tensor, counting from one. *)
Definition kth_largest (x : list Q) (k : nat) : Q :=
  nth (k - 1) (fst (torch_sort x)) 0.


(** What reaches [div_] cannot be drawn from: a NaN tensor, or a tensor
    whose sum is zero. *)
Definition degenerate (probs_sort : option (list Q)) : Prop :=
  match probs_sort with
  | None => True
  | Some ps => Qsum ps == 0
  end.

(** The serialised history as the loop walks it. *)
Definition walk_items (text : string) (history : list (string * string))
    : list string :=
  rev (map format_turn history ++ [format_text text])%list.

(** How many of the items the walk commits before it breaks or runs out. *)
Fixpoint committed (tokenizer : Tokenizer) (max_length : Z)
    (items : list string) (history_text : string) : nat :=
  match items with
  | [] => 0
  | x :: rest =>
      if fits tokenizer max_length history_text x
      then S (committed tokenizer max_length rest (x ++ history_text))
      else 0
  end.

(** * Properties *)

Local Open Scope Q_scope.

(** ** Rationals and sums *)

Lemma Qlt_bool_iff (x y : Q) : Qlt_bool x y = true <-> x < y.
Proof.
  unfold Qlt_bool. rewrite negb_true_iff.
  split.
  - intros H. apply Qnot_le_lt. intros Hle.
    apply Qle_bool_iff in Hle. congruence.
  - intros H. destruct (Qle_bool y x) eqn:E; [|reflexivity].
    apply Qle_bool_iff in E. lra.
Qed.

Lemma Qlt_bool_false_iff (x y : Q) : Qlt_bool x y = false <-> y <= x.
Proof.
  unfold Qlt_bool. rewrite negb_false_iff. apply Qle_bool_iff.
Qed.


Lemma Qsum_app (l1 l2 : list Q) : Qsum (l1 ++ l2) == Qsum l1 + Qsum l2.
Proof.
  induction l1 as [|x l1 IH]; simpl.
  - lra.
  - rewrite IH. lra.
Qed.

Lemma Qsum_nonneg (l : list Q) : Forall (fun p => 0 <= p) l -> 0 <= Qsum l.
Proof.
  induction 1 as [|x l Hx _ IH]; simpl; lra.
Qed.

Lemma Qsum_firstn_S (l : list Q) (j : nat) :
  (j < List.length l)%nat ->
  Qsum (firstn (S j) l) == Qsum (firstn j l) + nth j l 0.
Proof.
  revert j. induction l as [|x l IH]; intros j Hj; simpl in Hj; [lia|].
  destruct j as [|j].
  - simpl. lra.
  - change (x + Qsum (firstn (S j) l) == x + Qsum (firstn j l) + nth j l 0).
    rewrite IH by lia. lra.
Qed.

Lemma Qsum_firstn_mono (l : list Q) :
  Forall (fun p => 0 <= p) l ->
  forall i j, (i <= j)%nat -> Qsum (firstn i l) <= Qsum (firstn j l).
Proof.
  induction 1 as [|x l Hx Hl IH]; intros i j Hij.
  - rewrite !firstn_nil. lra.
  - destruct i as [|i]; destruct j as [|j]; try lia; simpl.
    + lra.
    + specialize (IH 0%nat j ltac:(lia)). simpl in IH. lra.
    + specialize (IH i j ltac:(lia)). lra.
Qed.

Lemma Qsum_firstn_le_total (l : list Q) (j : nat) :
  Forall (fun p => 0 <= p) l -> Qsum (firstn j l) <= Qsum l.
Proof.
  intros Hl.
  rewrite <- (firstn_all l) at 2.
  destruct (Nat.le_ge_cases j (List.length l)) as [H|H].
  - now apply Qsum_firstn_mono.
  - rewrite (firstn_all2 l H), firstn_all. lra.
Qed.

(** ** The top-p mask *)

Lemma length_cumsum_from (l : list Q) (a : Q) :
  List.length (cumsum_from a l) = List.length l.
Proof.
  revert a. induction l as [|x l IH]; intros a; simpl; [reflexivity|].
  now rewrite IH.
Qed.

Lemma nth_cumsum_from (l : list Q) (a : Q) (j : nat) :
  (j < List.length l)%nat ->
  nth j (cumsum_from a l) 0 == a + Qsum (firstn (S j) l).
Proof.
  revert a j. induction l as [|x l IH]; intros a j Hj; simpl in Hj; [lia|].
  destruct j as [|j].
  - simpl. lra.
  - change (nth j (cumsum_from (a + x) l) 0 == a + (x + Qsum (firstn (S j) l))).
    rewrite IH by lia. lra.
Qed.

(** The running sum minus the entry is the mass strictly before it. *)
Lemma cumsum_minus_entry (l : list Q) (j : nat) :
  (j < List.length l)%nat ->
  nth j (cumsum l) 0 - nth j l 0 == Qsum (firstn j l).
Proof.
  intros Hj. unfold cumsum.
  rewrite nth_cumsum_from, Qsum_firstn_S by exact Hj. lra.
Qed.

Lemma nth_masked_from (top_p : Q) (l : list Q) (a : Q) (j : nat) :
  (j < List.length l)%nat ->
  nth j (masked_zero l
           (map (fun sp : Q * Q => Qlt_bool top_p (fst sp - snd sp))
                (combine (cumsum_from a l) l))) 0
  = if Qlt_bool top_p (nth j (cumsum_from a l) 0 - nth j l 0)
    then 0 else nth j l 0.
Proof.
  revert a j. induction l as [|x l IH]; intros a j Hj; simpl in Hj; [lia|].
  destruct j as [|j].
  - reflexivity.
  - simpl. apply IH. lia.
Qed.

Lemma nth_apply_top_p (probs_sort : list Q) (top_p : Q) (j : nat) :
  (j < List.length probs_sort)%nat ->
  nth j (apply_top_p probs_sort top_p) 0
  = if Qlt_bool top_p (nth j (cumsum probs_sort) 0 - nth j probs_sort 0)
    then 0 else nth j probs_sort 0.
Proof.
  intros Hj. unfold apply_top_p, top_p_mask, cumsum.
  now apply nth_masked_from.
Qed.

Lemma length_apply_top_p (probs_sort : list Q) (top_p : Q) :
  List.length (apply_top_p probs_sort top_p) = List.length probs_sort.
Proof.
  unfold apply_top_p, top_p_mask, masked_zero, cumsum.
  rewrite length_map, length_combine, length_map, length_combine,
    length_cumsum_from.
  lia.
Qed.


Lemma apply_top_p_kept (probs_sort : list Q) (top_p : Q) (j : nat) :
  (j < List.length probs_sort)%nat ->
  Qsum (firstn j probs_sort) <= top_p ->
  nth j (apply_top_p probs_sort top_p) 0 = nth j probs_sort 0.
Proof.
  intros Hj H. rewrite nth_apply_top_p by exact Hj.
  rewrite <- cumsum_minus_entry in H by exact Hj.
  apply Qlt_bool_false_iff in H. now rewrite H.
Qed.

(** ** The descending sort *)

Lemma map_fst_combine {A B : Type} (l : list A) (l' : list B) :
  List.length l = List.length l' -> map fst (combine l l') = l.
Proof.
  revert l'. induction l as [|a l IH]; intros [|b l'] H; simpl in *;
    try reflexivity; try discriminate.
  f_equal. apply IH. lia.
Qed.

Lemma StronglySorted_map {A B : Type} (R : A -> A -> Prop) (R' : B -> B -> Prop)
    (f : A -> B) (l : list A) :
  (forall x y, R x y -> R' (f x) (f y)) ->
  StronglySorted R l -> StronglySorted R' (map f l).
Proof.
  intros HR. induction 1 as [|a l Hs IH Ha]; simpl; constructor.
  - exact IH.
  - rewrite Forall_map. eapply Forall_impl; [|exact Ha]. intros b. apply HR.
Qed.

Lemma ProbOrder_leb_trans : Transitive (fun x y => is_true (ProbOrder.leb x y)).
Proof.
  intros x y z Hxy Hyz. unfold is_true, ProbOrder.leb in *.
  apply Qle_bool_iff in Hxy, Hyz. apply Qle_bool_iff. lra.
Qed.

Lemma torch_sort_perm (probs : list Q) :
  Permutation probs (fst (torch_sort probs)).
Proof.
  unfold torch_sort; simpl.
  rewrite <- (map_fst_combine probs (seq 0 (List.length probs))) at 1
    by now rewrite length_seq.
  apply Permutation_map, ProbSort.Permuted_sort.
Qed.

Lemma torch_sort_length (probs : list Q) :
  List.length (fst (torch_sort probs)) = List.length probs.
Proof.
  symmetry. apply Permutation_length, torch_sort_perm.
Qed.

Lemma torch_sort_desc (probs : list Q) :
  StronglySorted (fun a b => b <= a) (fst (torch_sort probs)).
Proof.
  unfold torch_sort; simpl.
  apply StronglySorted_map with (R := fun x y => is_true (ProbOrder.leb x y)).
  - intros x y H. now apply Qle_bool_iff.
  - apply ProbSort.StronglySorted_sort, ProbOrder_leb_trans.
Qed.

Lemma desc_nth (s : list Q) :
  StronglySorted (fun a b => b <= a) s ->
  forall i j, (i <= j)%nat -> (j < List.length s)%nat -> nth j s 0 <= nth i s 0.
Proof.
  induction 1 as [|a s Hs IH Ha]; intros i j Hij Hj; simpl in Hj; [lia|].
  destruct j as [|j].
  - assert (i = 0%nat) by lia. subst. simpl. lra.
  - destruct i as [|i]; simpl.
    + rewrite Forall_forall in Ha. apply Ha, nth_In. lia.
    + apply IH; lia.
Qed.

Lemma Qsum_perm (l l' : list Q) : Permutation l l' -> Qsum l == Qsum l'.
Proof.
  induction 1 as [|x l l' _ IH|x y l|l l' l'' _ IH1 _ IH2]; simpl.
  - lra.
  - rewrite IH. lra.
  - lra.
  - rewrite IH1. exact IH2.
Qed.


(** ** The top-k cut *)

Lemma torch_min_spec (x : list Q) :
  x <> [] ->
  exists m, torch_min x = Ok m /\ In m x /\ Forall (fun p => m <= p) x.
Proof.
  induction x as [|a r IH]; intros Hne; [congruence|].
  destruct r as [|b r].
  - exists a. simpl. repeat split; [now left|].
    constructor; [lra|constructor].
  - destruct IH as (m & Hm & Hin & Hall); [discriminate|].
    change (torch_min (a :: b :: r)) with
      (match torch_min (b :: r) with
       | Ok m => Ok (if Qle_bool a m then a else m)
       | Raise e => Raise e
       end).
    rewrite Hm.
    destruct (Qle_bool a m) eqn:E.
    + exists a. apply Qle_bool_iff in E. repeat split; [now left|].
      constructor; [lra|].
      eapply Forall_impl; [|exact Hall]. intros p Hp. simpl in Hp. lra.
    + exists m. repeat split; [now right|].
      constructor; [|exact Hall].
      destruct (Qlt_le_dec m a) as [H|H]; [lra|].
      apply Qle_bool_iff in H. congruence.
Qed.

Lemma torch_min_topk (x : list Q) (k : nat) :
  (1 <= k <= List.length x)%nat ->
  exists m, torch_min (firstn k (fst (torch_sort x))) = Ok m
            /\ m == kth_largest x k.
Proof.
  intros Hk. set (s := fst (torch_sort x)).
  assert (Hlen : List.length s = List.length x) by apply torch_sort_length.
  assert (Hs := torch_sort_desc x). fold s in Hs.
  destruct (torch_min_spec (firstn k s)) as (m & Hm & Hin & Hall).
  { intros E. apply (f_equal (@List.length Q)) in E.
    rewrite length_firstn in E. simpl in E. lia. }
  exists m. split; [exact Hm|].
  unfold kth_largest. fold s.
  apply Qle_antisym.
  - assert (Hk1 : nth (k - 1) (firstn k s) 0 = nth (k - 1) s 0).
    { rewrite nth_firstn.
      now replace (k - 1 <? k)%nat with true
        by (symmetry; apply Nat.ltb_lt; lia). }
    rewrite Forall_forall in Hall. apply Hall.
    rewrite <- Hk1. apply nth_In. rewrite length_firstn. lia.
  - destruct (In_nth _ _ 0 Hin) as (i & Hi & Hnth).
    rewrite length_firstn in Hi.
    rewrite nth_firstn in Hnth.
    replace (i <? k)%nat with true in Hnth
      by (symmetry; apply Nat.ltb_lt; lia).
    rewrite <- Hnth. apply desc_nth; [exact Hs| |]; lia.
Qed.

Lemma nth_where_below (m : Q) (x : list Q) (j : nat) :
  nth j (where_below m x) 0 = if Qlt_bool (nth j x 0) m then 0 else nth j x 0.
Proof.
  unfold where_below.
  revert j. induction x as [|a x IH]; intros [|j]; simpl;
    try (now destruct (Qlt_bool 0 m)); auto.
Qed.


Lemma apply_top_k_in_range (x : list Q) (k : nat) :
  (1 <= k <= List.length x)%nat ->
  exists m, m == kth_largest x k
            /\ apply_top_k x (Some (Z.of_nat k)) = Ok (where_below m x).
Proof.
  intros Hk. destruct (torch_min_topk x k Hk) as (m & Hm & Hkth).
  exists m. split; [exact Hkth|].
  unfold apply_top_k, topk.
  replace ((Z.of_nat k <? 0)%Z || (Z.of_nat (List.length x) <? Z.of_nat k)%Z)%bool
    with false.
  - unfold bind. rewrite Nat2Z.id, Hm. reflexivity.
  - symmetry. apply orb_false_iff. split; apply Z.ltb_ge; lia.
Qed.







(** ** Softmax *)

Lemma Qsum_map_div (s : Q) (l : list Q) :
  Qsum (map (fun e => e / s) l) == Qsum l / s.
Proof.
  induction l as [|x l IH]; simpl.
  - unfold Qdiv. lra.
  - rewrite IH. unfold Qdiv. lra.
Qed.

Lemma all_some_length {A : Type} (l : list (option A)) (r : list A) :
  all_some l = Some r -> List.length r = List.length l.
Proof.
  revert r. induction l as [|[a|] l IH]; intros r H; simpl in H.
  - now inversion H.
  - destruct (all_some l) as [r'|]; [|discriminate].
    inversion H; subst. simpl. now rewrite (IH r').
  - discriminate.
Qed.

Section SoftmaxFacts.

Variable exp : Q -> Q.
Hypothesis exp_nonneg : forall q, 0 <= exp q.

Lemma all_some_fexp_nonneg (logits : list fval) (es : list Q) :
  all_some (map (fexp exp) logits) = Some es -> Forall (fun e => 0 <= e) es.
Proof.
  revert es. induction logits as [|x l IH]; intros es H; simpl in H.
  - inversion H. constructor.
  - destruct (fexp exp x) as [e|] eqn:Ex; [|discriminate].
    destruct (all_some (map (fexp exp) l)) as [r|]; [|discriminate].
    inversion H; subst. constructor; [|now apply IH].
    destruct x; simpl in Ex; inversion Ex; subst; [apply exp_nonneg|lra].
Qed.

Lemma softmax_distribution (logits : list fval) (probs : list Q) :
  softmax exp logits = Some probs ->
  Forall (fun p => 0 <= p) probs /\ Qsum probs == 1
  /\ List.length probs = List.length logits.
Proof.
  unfold softmax. intros H.
  destruct (all_some (map (fexp exp) logits)) as [es|] eqn:Es; [|discriminate].
  destruct (Qeq_bool (Qsum es) 0) eqn:E0; [discriminate|].
  inversion H; subst; clear H.
  assert (Hes := all_some_fexp_nonneg _ _ Es).
  assert (Hs0 := Qsum_nonneg _ Hes).
  assert (Hsne : ~ Qsum es == 0).
  { intros C. apply Qeq_bool_iff in C. congruence. }
  assert (Hspos : 0 < Qsum es) by lra.
  repeat split.
  - rewrite Forall_map. eapply Forall_impl; [|exact Hes].
    intros e He. simpl in He. apply Qle_shift_div_l; lra.
  - rewrite Qsum_map_div. field. exact Hsne.
  - rewrite length_map, (all_some_length _ _ Es), length_map. reflexivity.
Qed.

End SoftmaxFacts.

(** ** Facts on the sorted probabilities *)


Lemma torch_sort_nonneg (probs : list Q) :
  Forall (fun p => 0 <= p) probs ->
  Forall (fun p => 0 <= p) (fst (torch_sort probs)).
Proof.
  intros H. apply Forall_forall. intros p Hp.
  rewrite Forall_forall in H. apply H.
  eapply Permutation_in; [symmetry; apply torch_sort_perm|exact Hp].
Qed.

Lemma exp_q_nonneg (q : Q) : 0 <= exp_q q.
Proof.
  unfold exp_q. apply Qpower_0_le. discriminate.
Qed.

Lemma sample_next_token_raise (exp : Q -> Q) (logits : list fval)
    (temperature top_p : Q) (top_k : option Z) (u : Q) (e : exn) :
  filtered_probs exp logits temperature top_p top_k = Raise e ->
  sample_next_token exp logits temperature top_p top_k u = Raise e.
Proof.
  intros H. unfold sample_next_token. now rewrite H.
Qed.


(** ** Degenerate distributions and unvalidated parameters *)

Lemma sample_next_token_degenerate (exp : Q -> Q) (logits : list fval)
    (temperature top_p : Q) (top_k : option Z) (u : Q)
    (probs_sort : option (list Q)) (probs_idx : list nat) :
  filtered_probs exp logits temperature top_p top_k
  = Ok (probs_sort, probs_idx) ->
  degenerate probs_sort ->
  sample_next_token exp logits temperature top_p top_k u
  = Raise RuntimeError_multinomial.
Proof.
  intros Hf Hd. unfold sample_next_token. rewrite Hf. unfold bind.
  destruct probs_sort as [ps|]; [|reflexivity].
  simpl in Hd. unfold div_sum.
  apply Qeq_bool_iff in Hd. now rewrite Hd.
Qed.








(** ** The decoder loop *)

Section DecoderFacts.

Variable exp : Q -> Q.
Context {KV : Type}.
Variable model : Model KV.
Variable tokenizer : Tokenizer.
Variables temperature top_p : Q.
Variable top_k : option Z.

Local Abbreviation step := (decode_step exp model tokenizer temperature top_p top_k).
Local Abbreviation loop sw :=
  (decode_loop exp model tokenizer sw temperature top_p top_k).
Local Abbreviation adv sw :=
  (advance exp model tokenizer sw temperature top_p top_k).

Lemma decode_step_inv (st st' : DecodeState) (u : Q) (text : string) :
  step st u = Ok (text, st') ->
  exists next_token,
    generated_tokens st' = (generated_tokens st ++ [next_token])%list
    /\ input_ids st' = (input_ids st ++ [next_token])%list
    /\ text = decode tokenizer (generated_tokens st').
Proof.
  unfold decode_step. intros H.
  destruct (query_model model st) as [[logits pkv]|]; simpl in H;
    [|discriminate].
  destruct (sample_next_token exp logits temperature top_p top_k u)
    as [t|]; simpl in H; [|discriminate].
  inversion H; subst; clear H. exists t. simpl. auto.
Qed.

Lemma yield_eq (text : string) (t : trace) (ys : list string) (f : ending) :
  yield text t = {| yields := ys; final := f |} ->
  exists ys', ys = text :: ys' /\ t = {| yields := ys'; final := f |}.
Proof.
  destruct t as [ys0 f0]. unfold yield. simpl. intros H.
  inversion H; subst. eauto.
Qed.

Lemma loop_length (sw : list string) (rng : nat -> Q) (n i : nat)
    (st : DecodeState) :
  (List.length (yields (loop sw rng n i st)) <= n)%nat.
Proof.
  revert i st. induction n as [|n IH]; intros i st; simpl; [lia|].
  destruct (step st (rng i)) as [[text st']|]; simpl; [|lia].
  destruct (hits_stop sw text); simpl; [lia|].
  specialize (IH (S i) st'). lia.
Qed.

Lemma loop_tokens (sw : list string) (rng : nat -> Q) (n i : nat)
    (st : DecodeState) :
  exists gen,
    List.length gen = List.length (yields (loop sw rng n i st))
    /\ forall j, (j < List.length (yields (loop sw rng n i st)))%nat ->
         nth j (yields (loop sw rng n i st)) ""%string
         = decode tokenizer (generated_tokens st ++ firstn (S j) gen)%list.
Proof.
  revert i st. induction n as [|n IH]; intros i st; simpl.
  - exists []. split; [reflexivity|]. simpl. intros j Hj. lia.
  - destruct (step st (rng i)) as [[text st']|] eqn:Hs; simpl.
    2:{ exists []. split; [reflexivity|]. simpl. intros j Hj. lia. }
    destruct (decode_step_inv _ _ _ _ Hs) as (t & Hg & _ & Ht).
    destruct (hits_stop sw text); simpl.
    + exists [t]. split; [reflexivity|].
      intros j Hj. assert (j = 0%nat) by lia. subst j.
      simpl. now rewrite Ht, Hg.
    + destruct (IH (S i) st') as (gen & Hlen & Hnth).
      exists (t :: gen). split; [simpl; now rewrite Hlen|].
      intros [|j] Hj.
      * simpl. now rewrite Ht, Hg.
      * rewrite Hnth by lia. rewrite Hg, <- app_assoc. reflexivity.
Qed.

Lemma loop_stop_last (sw : list string) (rng : nat -> Q) (n i : nat)
    (st : DecodeState) (j : nat) :
  (j < List.length (yields (loop sw rng n i st)))%nat ->
  hits_stop sw (nth j (yields (loop sw rng n i st)) ""%string) = true ->
  S j = List.length (yields (loop sw rng n i st))
  /\ final (loop sw rng n i st) = Stopped.
Proof.
  revert i st j. induction n as [|n IH]; intros i st j; simpl; [lia|].
  destruct (step st (rng i)) as [[text st']|]; simpl; [|lia].
  destruct (hits_stop sw text) eqn:Hh; simpl.
  - intros Hj _. split; [lia|reflexivity].
  - destruct j as [|j]; [congruence|].
    intros Hj Hhit.
    destruct (IH (S i) st' j ltac:(lia) Hhit) as [H1 H2].
    split; [lia|exact H2].
Qed.

Lemma loop_stopped (sw : list string) (rng : nat -> Q) (n i : nat)
    (st : DecodeState) :
  final (loop sw rng n i st) = Stopped ->
  exists j, S j = List.length (yields (loop sw rng n i st))
    /\ hits_stop sw (nth j (yields (loop sw rng n i st)) ""%string) = true.
Proof.
  revert i st. induction n as [|n IH]; intros i st; simpl; [discriminate|].
  destruct (step st (rng i)) as [[text st']|]; simpl; [|discriminate].
  destruct (hits_stop sw text) eqn:Hh; simpl.
  - intros _. exists 0%nat. auto.
  - intros Hf. destruct (IH (S i) st' Hf) as (j & Hj & Hhit).
    exists (S j). split; [lia|exact Hhit].
Qed.

(** A run that would go on for [n+1] iterations without a stop set, and
    whose text first hits the stop set at iteration [n], ends there. *)
Lemma free_run_stops (sw : list string) (rng : nat -> Q) (n : nat) :
  forall i st ys m,
    (S n <= m)%nat ->
    loop [] rng (S n) i st = {| yields := ys; final := Exhausted |} ->
    hits_stop sw (nth n ys ""%string) = true ->
    (forall j, (j < n)%nat -> hits_stop sw (nth j ys ""%string) = false) ->
    loop sw rng m i st = {| yields := ys; final := Stopped |}.
Proof.
  induction n as [|n IH]; intros i st ys m Hm Hfree Hhit Hbefore;
    (destruct m as [|m]; [lia|]); simpl in Hfree |- *;
    destruct (step st (rng i)) as [[text st']|]; try discriminate;
    simpl in Hfree; apply yield_eq in Hfree;
    destruct Hfree as (ys' & -> & Hrest).
  - inversion Hrest; subst. simpl in Hhit. now rewrite Hhit.
  - assert (H0 := Hbefore 0%nat ltac:(lia)). simpl in H0. rewrite H0.
    rewrite (IH (S i) st' ys' m ltac:(lia) Hrest Hhit); [reflexivity|].
    intros j Hj. apply (Hbefore (S j)). lia.
Qed.

Lemma loop_advance (sw : list string) (rng : nat -> Q) (k : nat) :
  forall i st ts st' n,
    adv sw rng k i st = Some (ts, st') ->
    loop sw rng (k + n) i st
    = {| yields := (ts ++ yields (loop sw rng n (k + i) st'))%list;
         final := final (loop sw rng n (k + i) st') |}.
Proof.
  induction k as [|k IH]; intros i st ts st' n H; simpl in H.
  - inversion H; subst. simpl. now destruct (loop sw rng n i st').
  - simpl. destruct (step st (rng i)) as [[text st1]|]; [|discriminate].
    destruct (hits_stop sw text); [discriminate|].
    destruct (adv sw rng k (S i) st1) as [[ts1 st2]|] eqn:Ha; [|discriminate].
    inversion H; subst. rewrite (IH _ _ _ _ n Ha).
    unfold yield. simpl. now rewrite Nat.add_succ_r.
Qed.

Lemma loop_degenerate (sw : list string) (rng : nat -> Q) (n i : nat)
    (st : DecodeState) (logits : list fval) (pkv : KV)
    (probs_sort : option (list Q)) (probs_idx : list nat) :
  query_model model st = Ok (logits, pkv) ->
  filtered_probs exp logits temperature top_p top_k
  = Ok (probs_sort, probs_idx) ->
  degenerate probs_sort ->
  loop sw rng (S n) i st
  = {| yields := []; final := Raised RuntimeError_multinomial |}.
Proof.
  intros Hq Hf Hd. simpl. unfold decode_step. rewrite Hq. simpl.
  now rewrite (sample_next_token_degenerate _ _ _ _ _ _ _ _ Hf Hd).
Qed.

End DecoderFacts.

(** ** Claims on the sampler's errors *)


(** C5.  A decode step whose distribution after the filters cannot be
    drawn from (it sums to zero, or it is NaN as when every logit is
    [-inf]) raises at the draw and returns no token id.  The exception
    leaves the generator at that step: the texts of the earlier steps have
    been yielded, nothing is yielded for this step or after. *)
Theorem degenerate_distribution_aborts_decode (exp : Q -> Q) {KV : Type}
    (model : Model KV) (tokenizer : Tokenizer) (stop_words : list string)
    (rng : nat -> Q) (ids : list nat) (max_length : Z)
    (temperature top_p : Q) (top_k : option Z)
    (k : nat) (ts : list string) (st : DecodeState)
    (logits : list fval) (pkv : KV)
    (probs_sort : option (list Q)) (probs_idx : list nat) :
  advance exp model tokenizer stop_words temperature top_p top_k rng k 0
    (initial_state ids) = Some (ts, st) ->
  query_model model st = Ok (logits, pkv) ->
  filtered_probs exp logits temperature top_p top_k
  = Ok (probs_sort, probs_idx) ->
  degenerate probs_sort ->
  (k < Z.to_nat max_length)%nat ->
  (forall u, sample_next_token exp logits temperature top_p top_k u
             = Raise RuntimeError_multinomial)
  /\ sample_decode exp rng ids model tokenizer stop_words max_length
       temperature top_p top_k
     = {| yields := ts; final := Raised RuntimeError_multinomial |}.
Proof.
  intros Ha Hq Hf Hd Hk. split.
  - intros u. exact (sample_next_token_degenerate _ _ _ _ _ _ _ _ Hf Hd).
  - unfold sample_decode.
    replace (Z.to_nat max_length)
      with (k + S (Z.to_nat max_length - k - 1))%nat by lia.
    erewrite loop_advance; [|exact Ha].
    erewrite loop_degenerate; [|exact Hq|exact Hf|exact Hd].
    simpl. now rewrite app_nil_r.
Qed.

Lemma degenerate_distribution_aborts_decode_witness :
  sample_decode exp_q (fun _ => 0) [72%nat] faulty_model char_tokenizer
    ["[|Human|]"%string] 5 1 1 (Some 25%Z)
  = {| yields := ["A"%string]; final := Raised RuntimeError_multinomial |}.
Proof.
  apply (proj2 (@degenerate_distribution_aborts_decode exp_q nat faulty_model
                  char_tokenizer ["[|Human|]"%string] (fun _ => 0) [72%nat] 5
                  1 1 (Some 25%Z) 1 ["A"%string]
                  {| input_ids := [72%nat; 65%nat];
                     past_key_values := Some 1%nat;
                     generated_tokens := [65%nat] |}
                  (repeat NInf 128) 2%nat None (seq 0 128)
                  eq_refl eq_refl eq_refl I ltac:(simpl; lia))).
Defined.

(** ** Claims on the decoder loop and its caller *)

Lemma free_run_length (exp : Q -> Q) {KV : Type} (model : Model KV)
    (tokenizer : Tokenizer) (temperature top_p : Q) (top_k : option Z)
    (sw : list string) (rng : nat -> Q) (n i : nat) (st : DecodeState) :
  final (decode_loop exp model tokenizer sw temperature top_p top_k rng n i st)
  = Exhausted ->
  List.length
    (yields (decode_loop exp model tokenizer sw temperature top_p top_k
               rng n i st)) = n.
Proof.
  revert i st. induction n as [|n IH]; intros i st; simpl; [reflexivity|].
  destruct (decode_step _ _ _ _ _ _ st (rng i)) as [[text st']|]; simpl;
    [|discriminate].
  destruct (hits_stop sw text); simpl; [discriminate|].
  intros H. now rewrite IH.
Qed.

(** C6.  The texts yielded by [sample_decode] are at most [max_length]
    many; the j-th one decodes the first [j+1] generated tokens, so each
    yield has one token more than the one before; a yield that contains a
    stop word is the last one, and the generator returns right after it.
    Hence, if the text first contains a stop word after [n+1] generated
    tokens (as seen on the run without a stop set), exactly [n+1] texts are
    yielded. *)
Theorem sample_decode_yields_until_stop (exp : Q -> Q) {KV : Type}
    (model : Model KV) (tokenizer : Tokenizer) (stop_words : list string)
    (rng : nat -> Q) (ids : list nat) (max_length : Z)
    (temperature top_p : Q) (top_k : option Z) :
  let tr := sample_decode exp rng ids model tokenizer stop_words max_length
              temperature top_p top_k in
  (List.length (yields tr) <= Z.to_nat max_length)%nat
  /\ (exists gen,
        List.length gen = List.length (yields tr)
        /\ forall j, (j < List.length (yields tr))%nat ->
             nth j (yields tr) ""%string
             = decode tokenizer (firstn (S j) gen))
  /\ (forall j, (j < List.length (yields tr))%nat ->
        hits_stop stop_words (nth j (yields tr) ""%string) = true ->
        S j = List.length (yields tr) /\ final tr = Stopped)
  /\ (final tr = Stopped ->
        exists j, S j = List.length (yields tr)
          /\ hits_stop stop_words (nth j (yields tr) ""%string) = true)
  /\ (forall n ys,
        (S n <= Z.to_nat max_length)%nat ->
        sample_decode exp rng ids model tokenizer [] (Z.of_nat (S n))
          temperature top_p top_k
        = {| yields := ys; final := Exhausted |} ->
        hits_stop stop_words (nth n ys ""%string) = true ->
        (forall j, (j < n)%nat ->
           hits_stop stop_words (nth j ys ""%string) = false) ->
        tr = {| yields := ys; final := Stopped |}
        /\ List.length ys = S n).
Proof.
  intros tr. unfold tr, sample_decode.
  split; [apply loop_length|].
  split; [apply (loop_tokens exp model tokenizer temperature top_p top_k
                   stop_words rng (Z.to_nat max_length) 0 (initial_state ids))|].
  split; [intros j; apply loop_stop_last|].
  split; [apply loop_stopped|].
  intros n ys Hn Hfree Hhit Hbefore.
  rewrite Nat2Z.id in Hfree.
  split.
  - now apply (free_run_stops exp model tokenizer temperature top_p top_k
                 stop_words rng n 0 (initial_state ids) ys).
  - assert (H := free_run_length exp model tokenizer temperature top_p top_k
                   [] rng (S n) 0 (initial_state ids)).
    rewrite Hfree in H. simpl in H. now apply H.
Qed.

Lemma sample_decode_yields_until_stop_witness :
  final (sample_decode exp_q (fun _ => 0) [72%nat]
           (emits "Hi there![|Human|]") char_tokenizer
           ["[|Human|]"%string] 256 1 1 (Some 25%Z)) = Stopped
  /\ List.length
       (yields (sample_decode exp_q (fun _ => 0) [72%nat]
                  (emits "Hi there![|Human|]") char_tokenizer
                  [] 18 1 1 (Some 25%Z))) = 18%nat.
Proof.
  destruct (proj2 (proj2 (proj2 (proj2
              (sample_decode_yields_until_stop exp_q
                 (emits "Hi there![|Human|]") char_tokenizer
                 ["[|Human|]"%string] (fun _ => 0) [72%nat] 256 1 1
                 (Some 25%Z)))))
              17%nat
              (yields (sample_decode exp_q (fun _ => 0) [72%nat]
                         (emits "Hi there![|Human|]") char_tokenizer
                         [] 18 1 1 (Some 25%Z))))
    as [Htr Hlen].
  - vm_compute. lia.
  - vm_compute. reflexivity.
  - vm_compute. reflexivity.
  - intros j Hj.
    do 17 (destruct j as [|j]; [vm_compute; reflexivity|]). lia.
  - split; [now rewrite Htr|exact Hlen].
Defined.

Lemma last_item_last {A : Type} (l : list A) (d : A) :
  l <> [] -> last_item l = Ok (last l d).
Proof.
  intros Hne. destruct (exists_last Hne) as (l' & a & ->).
  unfold last_item. rewrite rev_app_distr, last_last. reflexivity.
Qed.

(** C3.  [answer_generation] does not use [base_model], [adapter_model],
    [temperature], [top_p] and [top_k]: two calls that differ only there
    return the same result, and the decode inside runs with temperature 1,
    top_p 1, top_k 25 and at most 256 steps. *)
Theorem answer_generation_ignores_sampling_arguments (exp : Q -> Q)
    {KV : Type} (tokenizer : Tokenizer) (model : Model KV) (rng : nat -> Q)
    (base_model adapter_model base_model' adapter_model' question : string)
    (max_length : Z) (temperature top_p temperature' top_p' : Q)
    (top_k top_k' : Z) (max_context_length_tokens : Z) :
  answer_generation exp tokenizer model rng base_model adapter_model question
    max_length temperature top_p top_k max_context_length_tokens
  = answer_generation exp tokenizer model rng base_model' adapter_model'
      question max_length temperature' top_p' top_k' max_context_length_tokens
  /\ forall prompt_text inputs,
       generate_prompt_with_history question [] tokenizer max_length
       = Some (prompt_text, inputs) ->
       let tr := sample_decode exp rng
                   (slice_last inputs max_context_length_tokens)
                   model tokenizer ["[|Human|]"%string; "[|AI|]"%string]
                   256 1 1 (Some 25%Z) in
       answer_generation exp tokenizer model rng base_model adapter_model
         question max_length temperature top_p top_k
         max_context_length_tokens
       = match final tr with
         | Raised e => Raise e
         | _ => last_item (yields tr)
         end
       /\ (List.length (yields tr) <= 256)%nat.
Proof.
  split; [reflexivity|].
  intros prompt_text inputs Hp tr. split.
  - unfold answer_generation. rewrite Hp. reflexivity.
  - apply (loop_length exp model tokenizer 1 1 (Some 25%Z) _ rng 256).
Qed.

Lemma answer_generation_ignores_sampling_arguments_witness :
  answer_generation exp_q char_tokenizer (emits "Hi there![|Human|]")
    (fun _ => 0) "x" "y" "Hello" 2048 (1#2) (1#3) 7 180
  = Ok "Hi there![|Human|]"%string.
Proof.
  destruct (proj2 (answer_generation_ignores_sampling_arguments exp_q
                     char_tokenizer (emits "Hi there![|Human|]") (fun _ => 0)
                     "x" "y" "x" "y" "Hello" 2048 (1#2) (1#3) 1 1 7 30 180)
              (prompt ++ format_text "Hello")%string
              (encode char_tokenizer (prompt ++ format_text "Hello")))
    as [H _].
  - vm_compute. reflexivity.
  - rewrite H. vm_compute. reflexivity.
Defined.

(** C1, counterexample: the scenario of the specification.  The model
    emits [Hi there!] followed by the marker without a newline before it;
    the marker stays in the answer. *)
Lemma marker_without_newline_is_kept :
  script_answer exp_q char_tokenizer (emits "Hi there![|Human|]")
    (fun _ => 0) "decapoda-research/llama-7b-hf"
    "project-baize/baize-healthcare-lora-7B" "Hello" 2048 1 1 30 180
  = Ok "Hi there![|Human|]"%string.
Proof.
  vm_compute. reflexivity.
Qed.

(** C1, as the code has it.  When the prompt fits and the decode ends on
    a stop word, [answer_generation] returns the last yielded text as it
    is, and the script removes from it every occurrence of a newline
    followed by [[|Human|]], nothing else.  With a model that emits
    [Hi there!], a newline and [[|Human|]] one token at a time, the answer
    is [Hi there!]. *)
Theorem script_answer_strips_newline_human_marker (exp : Q -> Q)
    {KV : Type} (tokenizer : Tokenizer) (model : Model KV) (rng : nat -> Q)
    (base_model adapter_model question : string) (max_length : Z)
    (temperature top_p : Q) (top_k : Z) (max_context_length_tokens : Z)
    (prompt_text : string) (inputs : list nat) :
  generate_prompt_with_history question [] tokenizer max_length
  = Some (prompt_text, inputs) ->
  let tr := sample_decode exp rng
              (slice_last inputs max_context_length_tokens)
              model tokenizer ["[|Human|]"%string; "[|AI|]"%string]
              256 1 1 (Some 25%Z) in
  final tr = Stopped ->
  answer_generation exp tokenizer model rng base_model adapter_model
    question max_length temperature top_p top_k max_context_length_tokens
  = Ok (last (yields tr) ""%string)
  /\ script_answer exp tokenizer model rng base_model adapter_model
       question max_length temperature top_p top_k max_context_length_tokens
     = Ok (replace (nl ++ "[|Human|]") "" (last (yields tr) ""))%string
  /\ script_answer exp_q char_tokenizer
       (emits ("Hi there!" ++ nl ++ "[|Human|]")) (fun _ => 0)
       "decapoda-research/llama-7b-hf"
       "project-baize/baize-healthcare-lora-7B" "Hello" 2048 1 1 30 180
     = Ok "Hi there!"%string.
Proof.
  intros Hp tr Hfin.
  assert (Ha : answer_generation exp tokenizer model rng base_model
                 adapter_model question max_length temperature top_p top_k
                 max_context_length_tokens
               = Ok (last (yields tr) ""%string)).
  { unfold answer_generation. rewrite Hp. fold tr. rewrite Hfin.
    apply last_item_last.
    destruct (loop_stopped exp model tokenizer 1 1 (Some 25%Z) _ rng _ _ _ Hfin)
      as (j & Hj & _).
    fold (sample_decode exp rng (slice_last inputs max_context_length_tokens)
            model tokenizer ["[|Human|]"%string; "[|AI|]"%string] 256 1 1
            (Some 25%Z)) in Hj.
    fold tr in Hj. intros E. rewrite E in Hj. discriminate. }
  split; [exact Ha|]. split.
  - unfold script_answer. rewrite Ha. reflexivity.
  - vm_compute. reflexivity.
Qed.

Lemma script_answer_strips_newline_human_marker_witness :
  script_answer exp_q char_tokenizer
    (emits ("Hi there!" ++ nl ++ "[|AI|]")) (fun _ => 0)
    "b" "a" "Hello" 2048 1 1 30 180
  = Ok ("Hi there!" ++ nl ++ "[|AI|]")%string.
Proof.
  destruct (script_answer_strips_newline_human_marker exp_q char_tokenizer
              (emits ("Hi there!" ++ nl ++ "[|AI|]")) (fun _ => 0)
              "b" "a" "Hello" 2048 1 1 30 180
              (prompt ++ format_text "Hello")%string
              (encode char_tokenizer (prompt ++ format_text "Hello")))
    as (_ & H & _).
  - vm_compute. reflexivity.
  - vm_compute. reflexivity.
  - rewrite H. vm_compute. reflexivity.
Defined.

(** ** Prompt assembly *)

Local Open Scope string_scope.

(* The preamble is a long literal: keep [simpl] and [cbn] from unfolding
   it. *)
Local Opaque prompt.

Lemma append_assoc (a b c : string) : (a ++ b) ++ c = a ++ (b ++ c).
Proof.
  induction a as [|x a IH]; simpl; [reflexivity|]. now rewrite IH.
Qed.

Lemma join_app (l1 l2 : list string) : join (l1 ++ l2) = join l1 ++ join l2.
Proof.
  induction l1 as [|x l1 IH]; simpl; [reflexivity|].
  now rewrite IH, append_assoc.
Qed.

Lemma append_nil_r (a : string) : a ++ "" = a.
Proof.
  induction a as [|x a IH]; simpl; [reflexivity|]. now rewrite IH.
Qed.

(** The walk returns the committed items, oldest first, in front of the
    accumulator it started from. *)
Lemma walk_history_committed (tokenizer : Tokenizer) (max_length : Z)
    (items : list string) :
  forall history_text flag,
    walk_history tokenizer max_length items history_text flag
    = (join (rev (firstn (committed tokenizer max_length items history_text)
                    items)) ++ history_text,
       (flag || (0 <? committed tokenizer max_length items history_text)%nat)%bool).
Proof.
  induction items as [|x rest IH]; intros history_text flag; simpl.
  - now rewrite orb_false_r.
  - destruct (fits tokenizer max_length history_text x); simpl.
    + rewrite IH, join_app. simpl.
      now rewrite append_assoc, append_nil_r, orb_true_r.
    + now rewrite orb_false_r.
Qed.

Lemma committed_le_length (tokenizer : Tokenizer) (max_length : Z)
    (items : list string) :
  forall history_text,
    (committed tokenizer max_length items history_text <= List.length items)%nat.
Proof.
  induction items as [|x rest IH]; intros history_text; simpl; [lia|].
  destruct (fits tokenizer max_length history_text x); [|lia].
  specialize (IH (x ++ history_text)). lia.
Qed.

Lemma fits_mono (tokenizer : Tokenizer) (m1 m2 : Z) (history_text x : string) :
  (m1 <= m2)%Z ->
  fits tokenizer m1 history_text x = true ->
  fits tokenizer m2 history_text x = true.
Proof.
  unfold fits. intros Hm H. apply Z.leb_le in H. apply Z.leb_le. lia.
Qed.

Lemma committed_mono (tokenizer : Tokenizer) (m1 m2 : Z) (items : list string) :
  (m1 <= m2)%Z ->
  forall history_text,
    (committed tokenizer m1 items history_text
     <= committed tokenizer m2 items history_text)%nat.
Proof.
  intros Hm. induction items as [|x rest IH]; intros history_text; simpl;
    [lia|].
  destruct (fits tokenizer m1 history_text x) eqn:E1; [|lia].
  rewrite (fits_mono _ _ _ _ _ Hm E1).
  specialize (IH (x ++ history_text)). lia.
Qed.

Lemma walk_items_cons (text : string) (history : list (string * string)) :
  walk_items text history = format_text text :: rev (map format_turn history).
Proof.
  unfold walk_items. now rewrite rev_app_distr.
Qed.

(** The shape of the result: [None] when not even the new utterance is
    committed, otherwise the preamble, the [c - 1] most recent turns oldest
    first, and the new utterance. *)
Lemma generate_prompt_shape (text : string) (history : list (string * string))
    (tokenizer : Tokenizer) (max_length : Z) :
  generate_prompt_with_history text history tokenizer max_length
  = match committed tokenizer max_length (walk_items text history) "" with
    | O => None
    | S c =>
        Some (prompt ++ join (map format_turn (lastn c history))
                     ++ format_text text,
              encode tokenizer
                (prompt ++ join (map format_turn (lastn c history))
                        ++ format_text text))
    end.
Proof.
  unfold generate_prompt_with_history.
  fold (walk_items text history).
  rewrite walk_history_committed.
  destruct (committed tokenizer max_length (walk_items text history) "")
    as [|c] eqn:Ec; [reflexivity|].
  cbn [orb Nat.ltb Nat.leb].
  assert (Hj : join (rev (firstn (S c) (walk_items text history))) ++ ""
               = join (map format_turn (lastn c history)) ++ format_text text).
  { rewrite walk_items_cons. cbn [firstn rev].
    rewrite firstn_rev, rev_involutive, join_app. cbn [join fold_right].
    rewrite length_map, !append_nil_r.
    unfold lastn. now rewrite skipn_map. }
  now rewrite Hj.
Qed.

(** Assembly fails exactly when the preamble with the new utterance alone
    is over the budget. *)
Lemma generate_prompt_none_iff (text : string)
    (history : list (string * string)) (tokenizer : Tokenizer)
    (max_length : Z) :
  generate_prompt_with_history text history tokenizer max_length = None
  <-> (max_length < token_count tokenizer (prompt ++ format_text text))%Z.
Proof.
  rewrite generate_prompt_shape, walk_items_cons.
  cbn [committed]. unfold fits. cbn [append].
  destruct (token_count tokenizer (prompt ++ format_text text) <=? max_length)%Z
    eqn:E.
  - apply Z.leb_le in E. split; [discriminate|lia].
  - apply Z.leb_gt in E. split; [intros _; exact E|reflexivity].
Qed.

(** The walk is short-circuiting: when it stops before the end, the item
    it stopped at failed the test, and nothing after it is looked at. *)
Lemma committed_stops_at_misfit (tokenizer : Tokenizer) (max_length : Z)
    (items : list string) :
  forall history_text,
    let c := committed tokenizer max_length items history_text in
    (c < List.length items)%nat ->
    fits tokenizer max_length
      (join (rev (firstn c items)) ++ history_text) (nth c items "") = false.
Proof.
  induction items as [|x rest IH]; intros history_text; simpl; [lia|].
  destruct (fits tokenizer max_length history_text x) eqn:E; simpl.
  - intros Hc. rewrite join_app. simpl.
    rewrite append_assoc, append_nil_r. apply IH. lia.
  - intros _. exact E.
Qed.

(** C10.  With the utterance and the history fixed and two budgets
    [m1 <= m2] under which assembly succeeds, each prompt is the preamble,
    some number of most recent turns and the new utterance, and the number
    under [m2] is at least the number under [m1]. *)
Theorem included_turns_monotone (text : string)
    (history : list (string * string)) (tokenizer : Tokenizer) (m1 m2 : Z)
    (p1 p2 : string) (ids1 ids2 : list nat) :
  (m1 <= m2)%Z ->
  generate_prompt_with_history text history tokenizer m1 = Some (p1, ids1) ->
  generate_prompt_with_history text history tokenizer m2 = Some (p2, ids2) ->
  exists c1 c2,
    (c1 <= c2 <= List.length history)%nat
    /\ p1 = prompt ++ join (map format_turn (lastn c1 history))
                   ++ format_text text
    /\ p2 = prompt ++ join (map format_turn (lastn c2 history))
                   ++ format_text text.
Proof.
  intros Hm H1 H2.
  rewrite generate_prompt_shape in H1, H2.
  assert (Hc := committed_mono tokenizer m1 m2 (walk_items text history) Hm "").
  assert (Hl := committed_le_length tokenizer m2 (walk_items text history) "").
  unfold walk_items in Hl at 2.
  rewrite length_rev, length_app, length_map in Hl. cbn [List.length] in Hl.
  destruct (committed tokenizer m1 (walk_items text history) "") as [|c1];
    [discriminate|].
  destruct (committed tokenizer m2 (walk_items text history) "") as [|c2];
    [discriminate|].
  inversion H1; inversion H2; subst.
  exists c1, c2. repeat split; lia.
Qed.

Lemma included_turns_monotone_witness :
  exists c1 c2,
    (c1 <= c2 <= 1)%nat
    /\ prompt ++ format_text "q"
       = prompt ++ join (map format_turn (lastn c1 [("Hi", "ok")]))
                ++ format_text "q"
    /\ prompt ++ format_turn ("Hi", "ok") ++ format_text "q"
       = prompt ++ join (map format_turn (lastn c2 [("Hi", "ok")]))
                ++ format_text "q".
Proof.
  apply (included_turns_monotone "q" [("Hi", "ok")] char_tokenizer 700 2048
           (prompt ++ format_text "q")
           (prompt ++ format_turn ("Hi", "ok") ++ format_text "q")
           (encode char_tokenizer (prompt ++ format_text "q"))
           (encode char_tokenizer
              (prompt ++ format_turn ("Hi", "ok") ++ format_text "q"))).
  - discriminate.
  - vm_compute. reflexivity.
  - vm_compute. reflexivity.
Defined.

(** The included turns are the most recent ones, and the first turn left
    out is the one that failed the test of the loop. *)
Lemma prompt_is_recent_block (text : string)
    (history : list (string * string)) (tokenizer : Tokenizer)
    (max_length : Z) (p : string) (ids : list nat) :
  generate_prompt_with_history text history tokenizer max_length
  = Some (p, ids) ->
  exists c,
    (c <= List.length history)%nat
    /\ p = prompt ++ join (map format_turn (lastn c history))
                  ++ format_text text
    /\ ((c < List.length history)%nat ->
        fits tokenizer max_length
          (join (map format_turn (lastn c history)) ++ format_text text)
          (nth c (rev (map format_turn history)) "") = false).
Proof.
  intros H. rewrite generate_prompt_shape in H.
  assert (Hl := committed_le_length tokenizer max_length
                  (walk_items text history) "").
  assert (Hs := committed_stops_at_misfit tokenizer max_length
                  (walk_items text history) "").
  cbv zeta in Hs.
  destruct (committed tokenizer max_length (walk_items text history) "")
    as [|c]; [discriminate|].
  inversion H; subst; clear H.
  rewrite walk_items_cons in Hl, Hs.
  cbn [List.length] in Hl, Hs.
  rewrite length_rev, length_map in Hl, Hs.
  exists c. split; [lia|]. split; [reflexivity|].
  intros Hc. specialize (Hs ltac:(lia)).
  cbn [firstn rev nth] in Hs.
  rewrite firstn_rev, rev_involutive, join_app in Hs.
  cbn [join fold_right] in Hs.
  rewrite length_map, !append_nil_r in Hs.
  unfold lastn. now rewrite <- skipn_map.
Qed.

Lemma committed_last_test (tokenizer : Tokenizer) (max_length : Z)
    (items : list string) :
  forall history_text c,
    committed tokenizer max_length items history_text = S c ->
    exists previous x,
      join (rev (firstn (S c) items)) ++ history_text = x ++ previous
      /\ fits tokenizer max_length previous x = true.
Proof.
  induction items as [|x0 rest IH]; intros history_text c H;
    cbn [committed] in H; [discriminate|].
  destruct (fits tokenizer max_length history_text x0) eqn:E; [|discriminate].
  injection H as H.
  destruct c as [|c].
  - exists history_text, x0. split; [|exact E].
    cbn [firstn rev app join fold_right]. now rewrite append_nil_r.
  - destruct (IH (x0 ++ history_text) c H) as (previous & x & Hj & Hf).
    exists previous, x. split; [|exact Hf].
    rewrite <- Hj.
    change (firstn (S (S c)) (x0 :: rest)) with (x0 :: firstn (S c) rest).
    cbn [rev]. rewrite join_app. cbn [join fold_right].
    now rewrite append_assoc, append_nil_r.
Qed.

(** With a tokenizer whose count does not depend on the order of the two
    pieces after the preamble, a prompt that is returned is within the
    budget. *)
Lemma prompt_within_budget_when_order_insensitive (text : string)
    (history : list (string * string)) (tokenizer : Tokenizer)
    (max_length : Z) (p : string) (ids : list nat) :
  (forall a x, token_count tokenizer (prompt ++ a ++ x)
               = token_count tokenizer (prompt ++ x ++ a)) ->
  generate_prompt_with_history text history tokenizer max_length
  = Some (p, ids) ->
  (token_count tokenizer p <= max_length)%Z /\ ids = encode tokenizer p.
Proof.
  intros Hsym H. unfold generate_prompt_with_history in H.
  fold (walk_items text history) in H.
  rewrite walk_history_committed in H.
  destruct (committed tokenizer max_length (walk_items text history) "")
    as [|c] eqn:Ec; [discriminate|].
  cbn [orb Nat.ltb Nat.leb] in H. inversion H; subst; clear H.
  split; [|reflexivity].
  destruct (committed_last_test _ _ _ _ _ Ec) as (previous & x & Hj & Hf).
  change (token_count tokenizer
            (prompt ++ (join (rev (firstn (S c) (walk_items text history)))
                        ++ "")) <= max_length)%Z.
  rewrite Hj, <- Hsym. unfold fits in Hf. now apply Z.leb_le.
Qed.

(** ** Claims on the prompt budget: the measured string *)

(** C8, at the failing input: one earlier turn, a tokenizer that merges a
    closing bracket with the newline after it, and a budget of 705.  The
    loop measures the preamble, the new utterance and then the turn (705
    tokens), commits the turn in front of the utterance, and returns a
    prompt of 706 tokens. *)
Theorem prompt_over_budget_after_reordering :
  token_count merge_tokenizer
    (prompt ++ format_text "q" ++ format_turn ("Hi", "ok")) = 705%Z
  /\ generate_prompt_with_history "q" [("Hi", "ok")] merge_tokenizer 705
     = Some (prompt ++ format_turn ("Hi", "ok") ++ format_text "q",
             encode merge_tokenizer
               (prompt ++ format_turn ("Hi", "ok") ++ format_text "q"))
  /\ token_count merge_tokenizer
       (prompt ++ format_turn ("Hi", "ok") ++ format_text "q") = 706%Z.
Proof.
  repeat split; vm_compute; reflexivity.
Qed.

(** C7, at the same input: putting the turn in front of the accumulator
    gives 706 tokens, over the budget of 705, so the turn does not fit; the
    test of the loop, taken on the turn put after the accumulator, passes
    and the turn is in the returned prompt. *)
Theorem turn_over_budget_is_committed :
  (705 < token_count merge_tokenizer
           (prompt ++ format_turn ("Hi", "ok") ++ format_text "q"))%Z
  /\ fits merge_tokenizer 705 (format_text "q") (format_turn ("Hi", "ok"))
     = true
  /\ option_map fst
       (generate_prompt_with_history "q" [("Hi", "ok")] merge_tokenizer 705)
     = Some (prompt ++ format_turn ("Hi", "ok") ++ format_text "q").
Proof.
  repeat split; vm_compute; reflexivity.
Qed.

(** * Further properties of the sampler *)

Local Open Scope Q_scope.

(** Each sorted value sits at the index stored beside it. *)
Lemma combine_seq_In (l : list Q) :
  forall start v i,
    In (v, i) (combine l (seq start (List.length l))) ->
    (start <= i < start + List.length l)%nat /\ v = nth (i - start) l 0.
Proof.
  induction l as [|x l IH]; intros start v i H; simpl in H; [contradiction|].
  destruct H as [H|H].
  - inversion H; subst. split; [simpl; lia|].
    rewrite Nat.sub_diag. reflexivity.
  - destruct (IH (S start) v i H) as [Hr Hv]. split; [simpl; lia|].
    replace (i - start)%nat with (S (i - S start)) by lia. exact Hv.
Qed.

Lemma torch_sort_pairs (probs : list Q) (j : nat) :
  (j < List.length probs)%nat ->
  (nth j (snd (torch_sort probs)) 0 < List.length probs)%nat
  /\ nth j (fst (torch_sort probs)) 0
     = nth (nth j (snd (torch_sort probs)) 0%nat) probs 0.
Proof.
  intros Hj. unfold torch_sort. cbn [fst snd].
  set (s := ProbSort.sort (combine probs (seq 0 (List.length probs)))).
  assert (Hlen : List.length s = List.length probs).
  { unfold s. rewrite <- (Permutation_length (ProbSort.Permuted_sort _)).
    rewrite length_combine, length_seq. lia. }
  assert (Hin : In (nth j s (0, 0%nat)) s) by (apply nth_In; lia).
  apply (Permutation_in _ (Permutation_sym (ProbSort.Permuted_sort _))) in Hin.
  destruct (nth j s (0, 0%nat)) as [v i] eqn:E.
  apply combine_seq_In in Hin. destruct Hin as [Hr Hv].
  rewrite Nat.sub_0_r in Hv.
  change 0 with (fst (0, 0%nat)) at 1.
  change 0%nat with (snd (0, 0%nat)) at 1 3.
  rewrite !map_nth, E. cbn [fst snd]. split; [lia|exact Hv].
Qed.

Lemma torch_sort_idx_length (probs : list Q) :
  List.length (snd (torch_sort probs)) = List.length probs.
Proof.
  unfold torch_sort. cbn [snd].
  rewrite length_map, <- (Permutation_length (ProbSort.Permuted_sort _)).
  rewrite length_combine, length_seq. lia.
Qed.

Lemma softmax_length (exp : Q -> Q) (logits : list fval) (probs : list Q) :
  softmax exp logits = Some probs ->
  List.length probs = List.length logits /\ logits <> [].
Proof.
  unfold softmax. intros H.
  destruct (all_some (map (fexp exp) logits)) as [es|] eqn:Es; [|discriminate].
  destruct (Qeq_bool (Qsum es) 0) eqn:E0; [discriminate|].
  inversion H; subst; clear H. split.
  - now rewrite length_map, (all_some_length _ _ Es), length_map.
  - intros ->. simpl in Es. inversion Es; subst. discriminate.
Qed.

(** What a step does when it returns a token: the softmax is defined, the
    filters and the normalisation succeed, and the token is the index stored
    at the drawn position. *)
Lemma sample_next_token_ok (exp : Q -> Q) (logits : list fval)
    (temperature top_p : Q) (top_k : option Z) (u : Q) (t : nat) :
  sample_next_token exp logits temperature top_p top_k u = Ok t ->
  exists probs ps ws j,
    softmax exp (map (fun x => fdiv x temperature) logits) = Some probs
    /\ apply_top_k (apply_top_p (fst (torch_sort probs)) top_p) top_k = Ok ps
    /\ div_sum ps = Some ws
    /\ multinomial (Some ws) u = Ok j
    /\ t = nth j (snd (torch_sort probs)) 0%nat.
Proof.
  unfold sample_next_token, filtered_probs. intros H.
  destruct (softmax exp (map (fun x => fdiv x temperature) logits))
    as [probs|] eqn:Hsm.
  - destruct (torch_sort probs) as [s idx] eqn:Ets.
    cbn [fst snd].
    destruct (apply_top_k (apply_top_p s top_p) top_k) as [ps|] eqn:Hk;
      cbn [bind] in H; [|discriminate].
    destruct (div_sum ps) as [ws|] eqn:Hd; [|discriminate].
    destruct (multinomial (Some ws) u) as [j|] eqn:Hm; cbn [bind] in H;
      [|discriminate].
    inversion H; subst. exists probs, ps, ws, j.
    rewrite Ets. cbn [fst snd]. unfold gather.
    repeat split; assumption.
  - destruct (top_k_of_nan _ top_k) as [[]|]; cbn [bind multinomial] in H;
      discriminate.
Qed.

(** X1.  A token id returned by a step is a valid index of the logits. *)
Theorem sample_next_token_in_vocabulary (exp : Q -> Q) (logits : list fval)
    (temperature top_p : Q) (top_k : option Z) (u : Q) (t : nat) :
  sample_next_token exp logits temperature top_p top_k u = Ok t ->
  (t < List.length logits)%nat.
Proof.
  intros H.
  destruct (sample_next_token_ok _ _ _ _ _ _ _ H)
    as (probs & ps & ws & j & Hsm & _ & _ & _ & ->).
  destruct (softmax_length _ _ _ Hsm) as [Hlen Hne].
  rewrite length_map in Hlen.
  destruct (Nat.lt_ge_cases j (List.length probs)) as [Hj|Hj].
  - destruct (torch_sort_pairs probs j Hj) as [Hr _]. lia.
  - rewrite nth_overflow by (rewrite torch_sort_idx_length; lia).
    destruct logits; [now elim Hne|simpl; lia].
Qed.

Lemma sample_next_token_in_vocabulary_witness :
  (0 < List.length [Fin 0; Fin 0])%nat.
Proof.
  apply (sample_next_token_in_vocabulary exp_q [Fin 0; Fin 0] 1 1
           (Some 2%Z) 0 0%nat eq_refl).
Defined.

Lemma pick_positive (ws : list Q) :
  Forall (fun w => 0 <= w) ws ->
  forall r, 0 <= r < Qsum ws ->
    (pick ws r < List.length ws)%nat /\ 0 < nth (pick ws r) ws 0.
Proof.
  induction 1 as [|w rest Hw Hrest IH]; intros r Hr.
  - simpl in Hr. lra.
  - destruct rest as [|w' rest'].
    + simpl in *. split; [lia|lra].
    + change (pick (w :: w' :: rest') r)
        with (if Qlt_bool r w then 0%nat else S (pick (w' :: rest') (r - w))).
      destruct (Qlt_bool r w) eqn:E.
      * apply Qlt_bool_iff in E. simpl. split; [lia|lra].
      * apply Qlt_bool_false_iff in E.
        destruct (IH (r - w)) as [H1 H2].
        { change (Qsum (w :: w' :: rest')) with (w + Qsum (w' :: rest')) in Hr.
          lra. }
        split; [simpl in *; lia|exact H2].
Qed.

Lemma existsb_negative_false (ws : list Q) :
  existsb (fun p => Qlt_bool p 0) ws = false -> Forall (fun w => 0 <= w) ws.
Proof.
  induction ws as [|w ws IH]; simpl; intros H; constructor.
  - apply orb_false_iff in H. destruct H as [H _].
    now apply Qlt_bool_false_iff.
  - apply IH. apply orb_false_iff in H. tauto.
Qed.

(** A draw in [0,1) lands on a position of positive weight. *)
Lemma multinomial_positive (ws : list Q) (u : Q) (j : nat) :
  0 <= u < 1 ->
  multinomial (Some ws) u = Ok j ->
  (j < List.length ws)%nat /\ 0 < nth j ws 0.
Proof.
  intros Hu H. unfold multinomial in H.
  destruct (existsb (fun p => Qlt_bool p 0) ws) eqn:En; [discriminate|].
  destruct (Qeq_bool (Qsum ws) 0) eqn:E0; [discriminate|].
  cbn [orb] in H. inversion H; subst; clear H.
  assert (Hnn := existsb_negative_false ws En).
  assert (Hs := Qsum_nonneg ws Hnn).
  assert (Hne : ~ Qsum ws == 0).
  { intros C. apply Qeq_bool_iff in C. congruence. }
  apply pick_positive; [exact Hnn|]. split.
  - apply Qmult_le_0_compat; lra.
  - assert (H1 : u * Qsum ws < 1 * Qsum ws)
      by (apply Qmult_lt_compat_r; lra).
    lra.
Qed.

Lemma nth_map_in (A B : Type) (f : A -> B) (l : list A) (j : nat)
    (d : B) (d' : A) :
  (j < List.length l)%nat -> nth j (map f l) d = f (nth j l d').
Proof.
  revert j. induction l as [|a l IH]; intros [|j] Hj; simpl in *;
    try lia; [reflexivity|]. apply IH. lia.
Qed.

Lemma div_sum_nonzero (ps ws : list Q) (j : nat) :
  div_sum ps = Some ws ->
  (j < List.length ws)%nat ->
  0 < nth j ws 0 ->
  (j < List.length ps)%nat /\ ~ nth j ps 0 == 0.
Proof.
  unfold div_sum. intros H Hj Hpos.
  destruct (Qeq_bool (Qsum ps) 0); [discriminate|].
  inversion H; subst; clear H.
  rewrite length_map in Hj. split; [exact Hj|].
  rewrite (nth_map_in _ _ (fun p => p / Qsum ps) ps j 0 0 Hj) in Hpos.
  intros C. rewrite C in Hpos. unfold Qdiv in Hpos. lra.
Qed.

Lemma apply_top_p_entry (x : list Q) (top_p : Q) (j : nat) :
  ~ nth j (apply_top_p x top_p) 0 == 0 ->
  nth j (apply_top_p x top_p) 0 = nth j x 0.
Proof.
  intros H.
  destruct (Nat.lt_ge_cases j (List.length x)) as [Hj|Hj].
  - rewrite nth_apply_top_p in * by exact Hj.
    destruct (Qlt_bool top_p (nth j (cumsum x) 0 - nth j x 0));
      [now elim H|reflexivity].
  - rewrite nth_overflow in H by now rewrite length_apply_top_p.
    now elim H.
Qed.

Lemma apply_top_k_entry (x x' : list Q) (top_k : option Z) (j : nat) :
  apply_top_k x top_k = Ok x' ->
  ~ nth j x' 0 == 0 ->
  nth j x' 0 = nth j x 0.
Proof.
  unfold apply_top_k. intros H Hnz.
  destruct top_k as [k|]; [|now inversion H].
  destruct (topk x k) as [x1|]; cbn [bind] in H; [|discriminate].
  destruct (torch_min x1) as [m|]; cbn [bind] in H; [|discriminate].
  inversion H; subst; clear H.
  rewrite nth_where_below in *.
  destruct (Qlt_bool (nth j x 0) m); [now elim Hnz|reflexivity].
Qed.

(** X2.  With a draw in [0,1), the token a step returns has a non-zero
    softmax probability and was not zeroed by the top-p or the top-k
    filter: what the filters mask is never sampled. *)
Theorem sampled_token_survives_filters (exp : Q -> Q) (logits : list fval)
    (temperature top_p : Q) (top_k : option Z) (u : Q) (t : nat) :
  0 <= u < 1 ->
  sample_next_token exp logits temperature top_p top_k u = Ok t ->
  exists probs ps j,
    softmax exp (map (fun x => fdiv x temperature) logits) = Some probs
    /\ filtered_probs exp logits temperature top_p top_k
       = Ok (Some ps, snd (torch_sort probs))
    /\ t = nth j (snd (torch_sort probs)) 0%nat
    /\ ~ nth j ps 0 == 0
    /\ nth j ps 0 = nth t probs 0.
Proof.
  intros Hu H.
  destruct (sample_next_token_ok _ _ _ _ _ _ _ H)
    as (probs & ps & ws & j & Hsm & Hk & Hd & Hm & Ht).
  destruct (multinomial_positive ws u j Hu Hm) as [Hj Hpos].
  destruct (div_sum_nonzero ps ws j Hd Hj Hpos) as [Hjp Hnz].
  exists probs, ps, j. split; [exact Hsm|]. split.
  - unfold filtered_probs. rewrite Hsm.
    destruct (torch_sort probs) as [s idx]. cbn [fst snd] in *.
    now rewrite Hk.
  - split; [exact Ht|]. split; [exact Hnz|].
    rewrite (apply_top_k_entry _ _ _ _ Hk Hnz).
    rewrite (apply_top_k_entry _ _ _ _ Hk Hnz) in Hnz.
    rewrite (apply_top_p_entry _ _ _ Hnz).
    assert (Hjl : (j < List.length probs)%nat).
    { destruct (Nat.lt_ge_cases j (List.length probs)) as [Hl|Hl];
        [exact Hl|].
      rewrite (apply_top_p_entry _ _ _ Hnz) in Hnz.
      rewrite nth_overflow in Hnz by (rewrite torch_sort_length; lia).
      now elim Hnz. }
    rewrite Ht. apply (torch_sort_pairs probs j Hjl).
Qed.

Lemma sampled_token_survives_filters_witness :
  exists probs ps j,
    softmax exp_q (map (fun x => fdiv x 1) [Fin 0; NInf]) = Some probs
    /\ filtered_probs exp_q [Fin 0; NInf] 1 1 (Some 2%Z)
       = Ok (Some ps, snd (torch_sort probs))
    /\ 0%nat = nth j (snd (torch_sort probs)) 0%nat
    /\ ~ nth j ps 0 == 0
    /\ nth j ps 0 = nth 0 probs 0.
Proof.
  apply (sampled_token_survives_filters exp_q [Fin 0; NInf] 1 1 (Some 2%Z)
           (1#2) 0%nat).
  - split; discriminate || reflexivity.
  - reflexivity.
Defined.

Lemma all_some_nth_error {A : Type} (l : list (option A)) (r : list A)
    (t : nat) (o : option A) :
  all_some l = Some r ->
  nth_error l t = Some o ->
  exists a, o = Some a /\ nth_error r t = Some a.
Proof.
  revert r t. induction l as [|[a|] l IH]; intros r t H Ht; simpl in H.
  - destruct t; discriminate.
  - destruct (all_some l) as [r'|] eqn:E; [|discriminate].
    inversion H; subst; clear H.
    destruct t as [|t]; simpl in Ht.
    + inversion Ht; subst. exists a. auto.
    + simpl. now apply IH.
  - discriminate.
Qed.

Lemma softmax_of_minus_infinity (exp : Q -> Q) (logits : list fval)
    (probs : list Q) (t : nat) :
  softmax exp logits = Some probs ->
  nth_error logits t = Some NInf ->
  nth t probs 0 == 0.
Proof.
  unfold softmax. intros H Ht.
  destruct (all_some (map (fexp exp) logits)) as [es|] eqn:Es; [|discriminate].
  destruct (Qeq_bool (Qsum es) 0); [discriminate|].
  inversion H; subst; clear H.
  destruct (all_some_nth_error _ _ t (fexp exp NInf) Es) as (a & Ha & Hn).
  { now rewrite nth_error_map, Ht. }
  simpl in Ha. inversion Ha; subst a.
  assert (Hlt : (t < List.length es)%nat)
    by (apply nth_error_Some; congruence).
  rewrite (nth_map_in _ _ (fun e => e / Qsum es) es t 0 0 Hlt).
  rewrite (nth_error_nth es t 0 Hn). unfold Qdiv. lra.
Qed.

(** X3.  A token whose logit is [-inf] is never returned, whatever the
    temperature and the filters, for a draw in [0,1). *)
Theorem minus_infinity_logit_never_sampled (exp : Q -> Q)
    (logits : list fval) (temperature top_p : Q) (top_k : option Z)
    (u : Q) (t : nat) :
  0 <= u < 1 ->
  nth_error logits t = Some NInf ->
  sample_next_token exp logits temperature top_p top_k u <> Ok t.
Proof.
  intros Hu Ht H.
  destruct (sampled_token_survives_filters _ _ _ _ _ _ _ Hu H)
    as (probs & ps & j & Hsm & _ & _ & Hnz & Heq).
  assert (Hs : nth_error (map (fun x => fdiv x temperature) logits) t
               = Some (fdiv NInf temperature))
    by now rewrite nth_error_map, Ht.
  cbn [fdiv] in Hs.
  destruct (Qlt_bool temperature 0).
  - unfold softmax in Hsm.
    destruct (all_some (map (fexp exp)
                (map (fun x => fdiv x temperature) logits))) as [es|] eqn:Es;
      [|discriminate].
    destruct (all_some_nth_error _ _ t (fexp exp PInf) Es) as (a & Ha & _).
    { now rewrite nth_error_map, Hs. }
    discriminate.
  - apply Hnz. rewrite Heq.
    exact (softmax_of_minus_infinity _ _ _ _ Hsm Hs).
Qed.

Lemma minus_infinity_logit_never_sampled_witness :
  sample_next_token exp_q [NInf; Fin 0] 1 1 (Some 2%Z) (1#2) <> Ok 0%nat.
Proof.
  apply (minus_infinity_logit_never_sampled exp_q [NInf; Fin 0] 1 1
           (Some 2%Z) (1#2) 0%nat).
  - split; discriminate || reflexivity.
  - reflexivity.
Defined.

(** X4.  A [top_k] that is not positive makes every step raise: a
    negative one in [torch.topk], zero in [torch.min] over the empty
    selection. *)
Theorem nonpositive_top_k_raises (exp : Q -> Q) (logits : list fval)
    (temperature top_p : Q) (k : Z) (u : Q) :
  (k <= 0)%Z ->
  sample_next_token exp logits temperature top_p (Some k) u
  = Raise (if (k <? 0)%Z then RuntimeError_topk else IndexError_min).
Proof.
  intros Hk. apply sample_next_token_raise. unfold filtered_probs.
  destruct (softmax exp (map (fun x => fdiv x temperature) logits))
    as [probs|].
  - destruct (torch_sort probs) as [s idx].
    unfold apply_top_k, topk.
    destruct (k <? 0)%Z eqn:E; [reflexivity|].
    apply Z.ltb_ge in E. assert (k = 0%Z) by lia. subst k.
    replace (Z.of_nat (List.length (apply_top_p s top_p)) <? 0)%Z with false
      by (symmetry; apply Z.ltb_ge; lia).
    reflexivity.
  - unfold top_k_of_nan.
    destruct (k <? 0)%Z eqn:E; [reflexivity|].
    apply Z.ltb_ge in E. assert (k = 0%Z) by lia. subst k.
    replace (Z.of_nat
               (List.length (map (fun x => fdiv x temperature) logits)) <? 0)%Z
      with false by (symmetry; apply Z.ltb_ge; lia).
    reflexivity.
Qed.

Lemma nonpositive_top_k_raises_witness :
  sample_next_token exp_q [Fin 0; Fin 0] 1 1 (Some 0%Z) 0
  = Raise IndexError_min.
Proof.
  apply (nonpositive_top_k_raises exp_q [Fin 0; Fin 0] 1 1 0%Z 0).
  discriminate.
Defined.

Lemma sorted_head_is_max (probs : list Q) (i : nat) :
  (i < List.length probs)%nat ->
  nth i probs 0 <= nth 0 (fst (torch_sort probs)) 0.
Proof.
  intros Hi.
  assert (Hin : In (nth i probs 0) (fst (torch_sort probs))).
  { apply (Permutation_in _ (torch_sort_perm probs)). now apply nth_In. }
  destruct (In_nth _ _ 0 Hin) as (i' & Hi' & <-).
  apply desc_nth; [apply torch_sort_desc|lia|exact Hi'].
Qed.

(** X5.  With [top_k = 1], a non-negative [top_p] and a draw in [0,1),
    the step is greedy: the returned token has the largest softmax
    probability. *)
Theorem top_k_one_is_greedy (exp : Q -> Q) (logits : list fval)
    (temperature top_p : Q) (u : Q) (t : nat) :
  0 <= top_p ->
  0 <= u < 1 ->
  sample_next_token exp logits temperature top_p (Some 1%Z) u = Ok t ->
  exists probs,
    softmax exp (map (fun x => fdiv x temperature) logits) = Some probs
    /\ forall i, (i < List.length logits)%nat ->
         nth i probs 0 <= nth t probs 0.
Proof.
  intros Htp Hu H.
  destruct (sampled_token_survives_filters _ _ _ _ _ _ _ Hu H)
    as (probs & ps & j & Hsm & Hf & Ht & Hnz & Heq).
  exists probs. split; [exact Hsm|]. intros i Hi.
  destruct (softmax_length _ _ _ Hsm) as [Hlen Hne].
  rewrite length_map in Hlen.
  unfold filtered_probs in Hf. rewrite Hsm in Hf.
  destruct (torch_sort probs) as [s idx] eqn:Ets.
  assert (Hs : s = fst (torch_sort probs)) by now rewrite Ets.
  destruct (apply_top_k (apply_top_p s top_p) (Some 1%Z)) as [ps'|] eqn:Hk;
    cbn [bind] in Hf; [|discriminate].
  inversion Hf; subst ps'; clear Hf.
  assert (Hls : (1 <= List.length (apply_top_p s top_p))%nat).
  { rewrite length_apply_top_p, Hs, torch_sort_length, Hlen. lia. }
  destruct (apply_top_k_in_range (apply_top_p s top_p) 1 ltac:(lia))
    as (m & Hm & Hk').
  change (Z.of_nat 1) with 1%Z in Hk'. rewrite Hk in Hk'.
  inversion Hk'; subst ps; clear Hk'.
  (* the drawn entry was not below the cut, and was kept by top-p *)
  rewrite nth_where_below in Hnz, Heq.
  destruct (Qlt_bool (nth j (apply_top_p s top_p) 0) m) eqn:Eb;
    [now elim Hnz|].
  apply Qlt_bool_false_iff in Eb.
  rewrite (apply_top_p_entry _ _ _ Hnz) in Eb, Heq.
  (* the cut is at least the first entry, which top-p keeps *)
  assert (H0 : nth 0 (apply_top_p s top_p) 0 <= m).
  { rewrite Hm. unfold kth_largest. cbn [Nat.sub].
    apply sorted_head_is_max. lia. }
  rewrite apply_top_p_kept in H0;
    [|rewrite Hs, torch_sort_length; lia|simpl; exact Htp].
  rewrite <- Heq.
  assert (Hmax := sorted_head_is_max probs i ltac:(lia)).
  rewrite <- Hs in Hmax. lra.
Qed.

Lemma top_k_one_is_greedy_witness :
  exists probs,
    softmax exp_q (map (fun x => fdiv x 1) [NInf; Fin 0]) = Some probs
    /\ forall i, (i < List.length [NInf; Fin 0])%nat ->
         nth i probs 0 <= nth 1 probs 0.
Proof.
  apply (top_k_one_is_greedy exp_q [NInf; Fin 0] 1 (1#2) (1#3) 1%nat).
  - discriminate.
  - split; discriminate || reflexivity.
  - reflexivity.
Defined.

(** * Further properties of the decoder loop *)

Lemma slice_last_one_app {A : Type} (l : list A) (a : A) :
  slice_last (l ++ [a]) 1 = [a].
Proof.
  unfold slice_last. change (0 <? 1)%Z with true. cbv iota.
  replace (List.length (l ++ [a]) - Z.to_nat 1)%nat with (List.length l)
    by (rewrite length_app; simpl; lia).
  rewrite skipn_app, skipn_all, Nat.sub_diag. reflexivity.
Qed.

(** X6.  The model is called on the whole input without a cache first,
    and after every step that yields it is called on exactly the token just
    sampled, with the cache the previous call returned. *)
Theorem model_sees_last_token_and_cache (exp : Q -> Q) {KV : Type}
    (model : Model KV) (tokenizer : Tokenizer) (temperature top_p : Q)
    (top_k : option Z) (ids : list nat) (st st' : DecodeState) (u : Q)
    (text : string) :
  query_model model (initial_state ids) = model ids None
  /\ (decode_step exp model tokenizer temperature top_p top_k st u
      = Ok (text, st') ->
      exists logits pkv next_token,
        query_model model st = Ok (logits, pkv)
        /\ sample_next_token exp logits temperature top_p top_k u
           = Ok next_token
        /\ generated_tokens st' = (generated_tokens st ++ [next_token])%list
        /\ query_model model st' = model [next_token] (Some pkv)).
Proof.
  split; [reflexivity|].
  unfold decode_step. intros H.
  destruct (query_model model st) as [[logits pkv]|]; cbn [bind] in H;
    [|discriminate].
  destruct (sample_next_token exp logits temperature top_p top_k u)
    as [t|] eqn:Hsample; cbn [bind] in H; [|discriminate].
  inversion H; subst; clear H.
  exists logits, pkv, t.
  split; [reflexivity|]. split; [exact Hsample|]. split; [reflexivity|].
  unfold query_model. cbn [past_key_values input_ids].
  now rewrite slice_last_one_app.
Qed.

Lemma model_sees_last_token_and_cache_witness :
  exists logits pkv next_token,
    query_model (emits "Hi") (initial_state [72%nat])
    = Ok (logits, pkv)
    /\ sample_next_token exp_q logits 1 1 (Some 25%Z) 0 = Ok next_token
    /\ [72%nat] = ([] ++ [next_token])%list
    /\ query_model (emits "Hi")
         {| input_ids := [72%nat; 72%nat]; past_key_values := Some 1%nat;
            generated_tokens := [72%nat] |}
       = emits "Hi" [next_token] (Some pkv).
Proof.
  apply (proj2 (model_sees_last_token_and_cache exp_q (emits "Hi")
                  char_tokenizer 1 1 (Some 25%Z) [72%nat]
                  (initial_state [72%nat])
                  {| input_ids := [72%nat; 72%nat];
                     past_key_values := Some 1%nat;
                     generated_tokens := [72%nat] |}
                  0 "H"%string)).
  vm_compute. reflexivity.
Defined.

(** X7.  After [k] yielding steps the running input is the initial input
    followed by the [k] generated tokens, and a cache is held from the
    first step on. *)
Theorem input_is_prompt_then_generated (exp : Q -> Q) {KV : Type}
    (model : Model KV) (tokenizer : Tokenizer) (stop_words : list string)
    (temperature top_p : Q) (top_k : option Z) (rng : nat -> Q)
    (ids : list nat) (k : nat) (ts : list string) (st : DecodeState) :
  advance exp model tokenizer stop_words temperature top_p top_k rng k 0
    (initial_state ids) = Some (ts, st) ->
  input_ids st = (ids ++ generated_tokens st)%list
  /\ List.length (generated_tokens st) = k
  /\ List.length ts = k
  /\ ((0 < k)%nat -> past_key_values st <> None).
Proof.
  assert (G : forall k i (st0 st1 : @DecodeState KV) ts0,
             advance exp model tokenizer stop_words temperature top_p top_k
               rng k i st0 = Some (ts0, st1) ->
             (exists gen,
                 generated_tokens st1 = (generated_tokens st0 ++ gen)%list
                 /\ input_ids st1 = (input_ids st0 ++ gen)%list
                 /\ List.length gen = k)
             /\ List.length ts0 = k
             /\ ((0 < k)%nat -> past_key_values st1 <> None)).
  { clear. induction k as [|k IH]; intros i st0 st1 ts0 H; cbn [advance] in H.
    - inversion H; subst. split; [|split; [reflexivity|lia]].
      exists []. now rewrite !app_nil_r.
    - destruct (decode_step exp model tokenizer temperature top_p top_k st0
                  (rng i)) as [[text st']|] eqn:Hs; [|discriminate].
      destruct (hits_stop stop_words text); [discriminate|].
      destruct (advance exp model tokenizer stop_words temperature top_p
                  top_k rng k (S i) st') as [[ts1 st2]|] eqn:Ha;
        [|discriminate].
      inversion H; subst; clear H.
      destruct (IH _ _ _ _ Ha) as ((gen & Hg & Hi & Hl) & Hts & Hkv).
      destruct (decode_step_inv _ _ _ _ _ _ _ _ _ _ Hs) as (t & Hg' & Hi' & _).
      split; [|split; [simpl; lia|]].
      + exists (t :: gen). rewrite Hg, Hi, Hg', Hi', <- !app_assoc.
        repeat split. simpl. lia.
      + intros _. destruct k as [|k]; [|apply Hkv; lia].
        cbn [advance] in Ha. inversion Ha; subst.
        unfold decode_step in Hs.
        destruct (query_model model st0) as [[lg pkv]|]; cbn [bind] in Hs;
          [|discriminate].
        destruct (sample_next_token exp lg temperature top_p top_k (rng i));
          cbn [bind] in Hs; [|discriminate].
        inversion Hs; subst. discriminate. }
  intros H. destruct (G _ _ _ _ _ H) as ((gen & Hg & Hi & Hl) & Hts & Hkv).
  cbn [initial_state generated_tokens input_ids app] in Hg, Hi.
  rewrite Hg, Hi. auto.
Qed.

Lemma input_is_prompt_then_generated_witness :
  [72%nat; 65%nat] = ([72%nat] ++ [65%nat])%list.
Proof.
  apply (proj1 (input_is_prompt_then_generated exp_q faulty_model
                  char_tokenizer ["[|Human|]"%string] 1 1 (Some 25%Z)
                  (fun _ => 0) [72%nat] 1 ["A"%string]
                  {| input_ids := [72%nat; 65%nat];
                     past_key_values := Some 1%nat;
                     generated_tokens := [65%nat] |} eq_refl)).
Defined.

(** X8.  When the generator runs out of steps it has yielded exactly
    [max_length] texts and none of them contains a stop word. *)
Theorem exhausted_run_is_full_and_unstopped (exp : Q -> Q) {KV : Type}
    (model : Model KV) (tokenizer : Tokenizer) (stop_words : list string)
    (rng : nat -> Q) (ids : list nat) (max_length : Z)
    (temperature top_p : Q) (top_k : option Z) :
  let tr := sample_decode exp rng ids model tokenizer stop_words max_length
              temperature top_p top_k in
  final tr = Exhausted ->
  List.length (yields tr) = Z.to_nat max_length
  /\ forall j, (j < List.length (yields tr))%nat ->
       hits_stop stop_words (nth j (yields tr) ""%string) = false.
Proof.
  intros tr Hf. split.
  - now apply free_run_length.
  - intros j Hj.
    destruct (hits_stop stop_words (nth j (yields tr) ""%string)) eqn:E;
      [|reflexivity].
    destruct (loop_stop_last exp model tokenizer temperature top_p top_k
                stop_words rng _ _ _ j Hj E) as [_ Hs].
    fold (sample_decode exp rng ids model tokenizer stop_words max_length
            temperature top_p top_k) in Hs.
    fold tr in Hs. congruence.
Qed.

Lemma exhausted_run_is_full_and_unstopped_witness :
  List.length
    (yields (sample_decode exp_q (fun _ => 0) [72%nat]
               (emits "Hi there![|Human|]") char_tokenizer
               ["[|Human|]"%string] 5 1 1 (Some 25%Z))) = 5%nat.
Proof.
  apply (proj1 (exhausted_run_is_full_and_unstopped exp_q
                  (emits "Hi there![|Human|]") char_tokenizer
                  ["[|Human|]"%string] (fun _ => 0) [72%nat] 5 1 1
                  (Some 25%Z) ltac:(vm_compute; reflexivity))).
Defined.

Lemma loop_longer (exp : Q -> Q) {KV : Type} (model : Model KV)
    (tokenizer : Tokenizer) (sw : list string) (temperature top_p : Q)
    (top_k : option Z) (rng : nat -> Q) (n : nat) :
  forall n' i st,
    (n <= n')%nat ->
    let short := decode_loop exp model tokenizer sw temperature top_p top_k
                   rng n i st in
    let long := decode_loop exp model tokenizer sw temperature top_p top_k
                  rng n' i st in
    (exists rest, yields long = (yields short ++ rest)%list)
    /\ (final short <> Exhausted -> long = short).
Proof.
  induction n as [|n IH]; intros n' i st Hn short long; subst short long.
  - cbn [decode_loop yields final]. split; [|congruence].
    eexists. reflexivity.
  - destruct n' as [|n']; [lia|]. cbn [decode_loop].
    destruct (decode_step exp model tokenizer temperature top_p top_k st
                (rng i)) as [[text st']|].
    + destruct (hits_stop sw text).
      * split; [exists []; now rewrite app_nil_r|reflexivity].
      * destruct (IH n' (S i) st' ltac:(lia)) as [[rest Hr] He].
        unfold yield. cbn [yields final]. split.
        -- exists rest. now rewrite Hr.
        -- intros Hne. now rewrite (He Hne).
    + split; [exists []; now rewrite app_nil_r|reflexivity].
Qed.

(** X9.  Raising [max_length] only extends the stream: the texts yielded
    under the smaller bound are a prefix of those under the larger one, and
    a run that ended on a stop word or an exception is unchanged. *)
Theorem larger_bound_extends_stream (exp : Q -> Q) {KV : Type}
    (model : Model KV) (tokenizer : Tokenizer) (stop_words : list string)
    (rng : nat -> Q) (ids : list nat) (m m' : Z)
    (temperature top_p : Q) (top_k : option Z) :
  (m <= m')%Z ->
  let short := sample_decode exp rng ids model tokenizer stop_words m
                 temperature top_p top_k in
  let long := sample_decode exp rng ids model tokenizer stop_words m'
                temperature top_p top_k in
  (exists rest, yields long = (yields short ++ rest)%list)
  /\ (final short <> Exhausted -> long = short).
Proof.
  intros Hm. unfold sample_decode. apply loop_longer. lia.
Qed.

Lemma larger_bound_extends_stream_witness :
  sample_decode exp_q (fun _ => 0) [72%nat] faulty_model char_tokenizer
    ["[|Human|]"%string] 9 1 1 (Some 25%Z)
  = sample_decode exp_q (fun _ => 0) [72%nat] faulty_model char_tokenizer
      ["[|Human|]"%string] 5 1 1 (Some 25%Z).
Proof.
  apply (proj2 (larger_bound_extends_stream exp_q faulty_model char_tokenizer
                  ["[|Human|]"%string] (fun _ => 0) [72%nat] 5 9 1 1
                  (Some 25%Z) ltac:(discriminate))).
  vm_compute. discriminate.
Defined.

Lemma prefix_iff (x s : string) :
  String.prefix x s = true <-> exists b, s = (x ++ b)%string.
Proof.
  revert s. induction x as [|c x IH]; intros s.
  - destruct s; simpl; split; eauto.
  - destruct s as [|d s]; simpl.
    + split; [discriminate|intros [b Hb]; discriminate].
    + destruct (Ascii.ascii_dec c d) as [->|Hne].
      * rewrite IH. split; intros [b Hb]; exists b; congruence.
      * split; [discriminate|intros [b Hb]; congruence].
Qed.

(** [x in text] holds exactly when [x] occurs in [text] as a contiguous
    substring. *)
Lemma str_in_iff_substring (x text : string) :
  str_in x text = true <-> exists a b, text = (a ++ x ++ b)%string.
Proof.
  induction text as [|c text IH].
  - cbn [str_in]. destruct (String.prefix x "") eqn:E.
    + apply prefix_iff in E. destruct E as [b Hb].
      split; [intros _; exists ""%string, b; exact Hb|reflexivity].
    + split; [discriminate|]. intros (a & b & H).
      destruct a; [|discriminate]. simpl in H.
      assert (String.prefix x "" = true) by (apply prefix_iff; eauto).
      congruence.
  - cbn [str_in]. destruct (String.prefix x (String c text)) eqn:E.
    + apply prefix_iff in E. destruct E as [b Hb].
      split; [intros _; exists ""%string, b; exact Hb|reflexivity].
    + rewrite IH. split.
      * intros (a & b & H). exists (String c a), b. simpl. now rewrite H.
      * intros (a & b & H). destruct a as [|d a].
        -- simpl in H.
           assert (String.prefix x (String c text) = true)
             by (apply prefix_iff; eauto).
           congruence.
        -- simpl in H. inversion H; subst. eauto.
Qed.

(** X10.  The stop test of the loop, [any([x in text for x in
    stop_words])], holds exactly when some stop word occurs in the text as
    a contiguous substring. *)
Theorem stop_test_iff_substring (stop_words : list string) (text : string) :
  hits_stop stop_words text = true
  <-> exists x a b, In x stop_words /\ text = (a ++ x ++ b)%string.
Proof.
  unfold hits_stop. rewrite existsb_exists. split.
  - intros (x & Hin & Hx). apply str_in_iff_substring in Hx.
    destruct Hx as (a & b & H). exists x, a, b. auto.
  - intros (x & a & b & Hin & H). exists x. split; [exact Hin|].
    apply str_in_iff_substring. eauto.
Qed.

(** X11.  Two edge cases of the stop set.  With no stop words the
    generator never returns early.  With the empty string among the stop
    words every text matches, so at most one text is yielded. *)
Theorem stop_set_edge_cases (exp : Q -> Q) {KV : Type}
    (model : Model KV) (tokenizer : Tokenizer) (stop_words : list string)
    (rng : nat -> Q) (ids : list nat) (max_length : Z)
    (temperature top_p : Q) (top_k : option Z) :
  final (sample_decode exp rng ids model tokenizer [] max_length
           temperature top_p top_k) <> Stopped
  /\ (In ""%string stop_words ->
      (List.length
         (yields (sample_decode exp rng ids model tokenizer stop_words
                    max_length temperature top_p top_k)) <= 1)%nat).
Proof.
  split.
  - intros Hs. apply loop_stopped in Hs. destruct Hs as (j & _ & Hh).
    discriminate.
  - intros Hin. unfold sample_decode.
    destruct (Z.to_nat max_length) as [|n]; cbn [decode_loop yields];
      [simpl; lia|].
    destruct (decode_step _ _ _ _ _ _ _ _) as [[text st']|];
      cbn [yields]; [|simpl; lia].
    assert (Hh : hits_stop stop_words text = true).
    { unfold hits_stop. apply existsb_exists. exists ""%string.
      split; [exact Hin|]. now destruct text. }
    rewrite Hh. simpl. lia.
Qed.

Lemma stop_set_edge_cases_witness :
  (List.length
     (yields (sample_decode exp_q (fun _ => 0%Q) [72%nat]
                (emits "Hi there!") char_tokenizer
                ["[|Human|]"%string; ""%string] 256 1 1 (Some 25%Z))) <= 1)%nat.
Proof.
  apply (proj2 (stop_set_edge_cases exp_q (emits "Hi there!") char_tokenizer
                  ["[|Human|]"%string; ""%string] (fun _ => 0) [72%nat] 256
                  1 1 (Some 25%Z))).
  right. left. reflexivity.
Defined.

(** * Further properties of the caller and of prompt assembly *)

Local Open Scope string_scope.

(** X12.  When the preamble with the question alone is over
    [max_length], [answer_generation] raises the [TypeError] of unpacking
    [None], whatever the model and the draws; the script raises with
    it. *)
Theorem over_budget_question_raises_type_error (exp : Q -> Q) {KV : Type}
    (tokenizer : Tokenizer) (model : Model KV) (rng : nat -> Q)
    (base_model adapter_model question : string) (max_length : Z)
    (temperature top_p : Q) (top_k : Z) (max_context_length_tokens : Z) :
  (max_length < token_count tokenizer (prompt ++ format_text question))%Z ->
  answer_generation exp tokenizer model rng base_model adapter_model question
    max_length temperature top_p top_k max_context_length_tokens
  = Raise TypeError_unpack_None
  /\ script_answer exp tokenizer model rng base_model adapter_model question
       max_length temperature top_p top_k max_context_length_tokens
     = Raise TypeError_unpack_None.
Proof.
  intros H. apply (generate_prompt_none_iff question []) in H.
  assert (Ha : answer_generation exp tokenizer model rng base_model
                 adapter_model question max_length temperature top_p top_k
                 max_context_length_tokens = Raise TypeError_unpack_None).
  { unfold answer_generation. now rewrite H. }
  split; [exact Ha|]. unfold script_answer. now rewrite Ha.
Qed.

Lemma over_budget_question_raises_type_error_witness :
  answer_generation exp_q char_tokenizer (emits "Hi") (fun _ => 0%Q)
    "decapoda-research/llama-7b-hf" "project-baize/baize-healthcare-lora-7B"
    "What is myopia?" 256 1 1 30 180
  = Raise TypeError_unpack_None.
Proof.
  apply (proj1 (over_budget_question_raises_type_error exp_q char_tokenizer
                  (emits "Hi") (fun _ => 0%Q)
                  "decapoda-research/llama-7b-hf"
                  "project-baize/baize-healthcare-lora-7B"
                  "What is myopia?" 256 1 1 30 180
                  ltac:(vm_compute; reflexivity))).
Defined.

Lemma loop_not_raised_nonempty (exp : Q -> Q) {KV : Type} (model : Model KV)
    (tokenizer : Tokenizer) (sw : list string) (temperature top_p : Q)
    (top_k : option Z) (rng : nat -> Q) (n i : nat) (st : DecodeState) :
  (forall e, final (decode_loop exp model tokenizer sw temperature top_p
                      top_k rng (S n) i st) <> Raised e) ->
  yields (decode_loop exp model tokenizer sw temperature top_p top_k rng
            (S n) i st) <> [].
Proof.
  cbn [decode_loop].
  destruct (decode_step exp model tokenizer temperature top_p top_k st
              (rng i)) as [[text st']|e].
  - destruct (hits_stop sw text); intros _; discriminate.
  - intros H. now elim (H e).
Qed.

(** X13.  What [answer_generation] returns once the prompt fits: an
    exception raised at any decode step is raised by the call, the texts
    yielded before it being lost; otherwise at least one text was yielded
    and the last one is returned, so the [[-1]] never fails. *)
Theorem answer_is_last_text_or_step_error (exp : Q -> Q) {KV : Type}
    (tokenizer : Tokenizer) (model : Model KV) (rng : nat -> Q)
    (base_model adapter_model question : string) (max_length : Z)
    (temperature top_p : Q) (top_k : Z) (max_context_length_tokens : Z)
    (prompt_text : string) (inputs : list nat) :
  generate_prompt_with_history question [] tokenizer max_length
  = Some (prompt_text, inputs) ->
  let tr := sample_decode exp rng
              (slice_last inputs max_context_length_tokens)
              model tokenizer ["[|Human|]"; "[|AI|]"] 256 1 1 (Some 25%Z) in
  (forall e, final tr = Raised e ->
     answer_generation exp tokenizer model rng base_model adapter_model
       question max_length temperature top_p top_k max_context_length_tokens
     = Raise e)
  /\ ((forall e, final tr <> Raised e) ->
      yields tr <> []
      /\ answer_generation exp tokenizer model rng base_model adapter_model
           question max_length temperature top_p top_k
           max_context_length_tokens
         = Ok (last (yields tr) "")).
Proof.
  intros Hp tr. split.
  - intros e He. unfold answer_generation. rewrite Hp. fold tr.
    now rewrite He.
  - intros Hne.
    assert (Hy : yields tr <> []).
    { apply (loop_not_raised_nonempty exp model tokenizer _ 1 1 (Some 25%Z)
               rng 255 0). exact Hne. }
    split; [exact Hy|].
    unfold answer_generation. rewrite Hp. fold tr.
    destruct (final tr) as [| |e] eqn:Ef;
      [now apply last_item_last|now apply last_item_last|now elim (Hne e)].
Qed.

Lemma answer_is_last_text_or_step_error_witness :
  answer_generation exp_q char_tokenizer faulty_model (fun _ => 0%Q)
    "b" "a" "Hello" 2048 1 1 30 180
  = Raise RuntimeError_multinomial.
Proof.
  apply (proj1 (answer_is_last_text_or_step_error exp_q char_tokenizer
                  faulty_model (fun _ => 0%Q) "b" "a" "Hello" 2048 1 1 30 180
                  (prompt ++ format_text "Hello")
                  (encode char_tokenizer (prompt ++ format_text "Hello"))
                  ltac:(vm_compute; reflexivity))).
  vm_compute. reflexivity.
Defined.

Lemma slice_last_suffix {A : Type} (l : list A) (n : Z) :
  exists dropped, l = (dropped ++ slice_last l n)%list.
Proof.
  unfold slice_last. destruct (0 <? n)%Z.
  - exists (firstn (List.length l - Z.to_nat n) l).
    now rewrite firstn_skipn.
  - exists (firstn (Z.to_nat (- n)) l). now rewrite firstn_skipn.
Qed.

(** X14.  The context window [inputs[-n:]].  What is fed to the decoder is
    always a tail of the prompt's token ids; for a positive [n] it has
    [min n (len inputs)] tokens; for [n = 0] it is the whole prompt, not
    the empty list, so a window of zero behaves like a window at least as
    long as the prompt. *)
Theorem context_window_is_tail (exp : Q -> Q) {KV : Type}
    (tokenizer : Tokenizer) (model : Model KV) (rng : nat -> Q)
    (base_model adapter_model question : string) (max_length : Z)
    (temperature top_p : Q) (top_k : Z) (n : Z)
    (prompt_text : string) (inputs : list nat) :
  generate_prompt_with_history question [] tokenizer max_length
  = Some (prompt_text, inputs) ->
  (exists dropped, inputs = (dropped ++ slice_last inputs n)%list)
  /\ ((0 < n)%Z ->
      List.length (slice_last inputs n)
      = Nat.min (Z.to_nat n) (List.length inputs))
  /\ (n = 0%Z \/ (Z.of_nat (List.length inputs) <= n)%Z ->
      slice_last inputs n = inputs
      /\ answer_generation exp tokenizer model rng base_model adapter_model
           question max_length temperature top_p top_k n
         = answer_generation exp tokenizer model rng base_model adapter_model
             question max_length temperature top_p top_k 0).
Proof.
  intros Hp. split; [apply slice_last_suffix|]. split.
  - intros Hn. unfold slice_last.
    replace (0 <? n)%Z with true by (symmetry; apply Z.ltb_lt; lia).
    rewrite length_skipn. lia.
  - intros Hn.
    assert (Hs : slice_last inputs n = inputs).
    { unfold slice_last. destruct Hn as [->|Hn]; [reflexivity|].
      destruct (0 <? n)%Z eqn:E.
      - replace (List.length inputs - Z.to_nat n)%nat with 0%nat by lia.
        reflexivity.
      - apply Z.ltb_ge in E.
        replace (Z.to_nat (- n)) with 0%nat by lia. reflexivity. }
    split; [exact Hs|].
    unfold answer_generation. rewrite Hp, Hs. reflexivity.
Qed.

Lemma context_window_is_tail_witness :
  List.length
    (slice_last (encode char_tokenizer (prompt ++ format_text "Hello")) 180)
  = Nat.min (Z.to_nat 180)
      (List.length (encode char_tokenizer (prompt ++ format_text "Hello"))).
Proof.
  apply (proj1 (proj2 (context_window_is_tail exp_q char_tokenizer
                         (emits "Hi") (fun _ => 0%Q) "b" "a" "Hello" 2048
                         1 1 30 180 (prompt ++ format_text "Hello")
                         (encode char_tokenizer (prompt ++ format_text "Hello"))
                         ltac:(vm_compute; reflexivity)))).
  reflexivity.
Defined.

(** X15.  Assembly returns [None] exactly when the preamble with the new
    utterance alone is over [max_length]; the history plays no part in
    it. *)
Theorem assembly_fails_iff_utterance_over_budget (text : string)
    (history : list (string * string)) (tokenizer : Tokenizer)
    (max_length : Z) :
  (generate_prompt_with_history text history tokenizer max_length = None
   <-> (max_length < token_count tokenizer (prompt ++ format_text text))%Z)
  /\ (generate_prompt_with_history text history tokenizer max_length = None
      <-> generate_prompt_with_history text [] tokenizer max_length = None).
Proof.
  split; [apply generate_prompt_none_iff|].
  now rewrite !generate_prompt_none_iff.
Qed.

(** X16.  The walk over the history short-circuits.  A returned prompt is
    the preamble, the [c] most recent turns in chronological order and the
    new utterance; when a turn is left out ([c] below the number of turns),
    the most recent turn left out failed the test of the loop, and no
    older turn is included whatever its size. *)
Theorem history_walk_short_circuits (text : string)
    (history : list (string * string)) (tokenizer : Tokenizer)
    (max_length : Z) (p : string) (ids : list nat) :
  generate_prompt_with_history text history tokenizer max_length
  = Some (p, ids) ->
  ids = encode tokenizer p
  /\ exists c,
       (c <= List.length history)%nat
       /\ p = prompt ++ join (map format_turn (lastn c history))
                     ++ format_text text
       /\ ((c < List.length history)%nat ->
           fits tokenizer max_length
             (join (map format_turn (lastn c history)) ++ format_text text)
             (nth c (rev (map format_turn history)) "") = false).
Proof.
  intros H. split; [|now apply (prompt_is_recent_block _ _ _ _ _ ids)].
  rewrite generate_prompt_shape in H.
  destruct (committed tokenizer max_length (walk_items text history) "");
    [discriminate|].
  now inversion H.
Qed.

Lemma history_walk_short_circuits_witness :
  exists c,
    (c <= 2)%nat
    /\ prompt ++ format_text "q"
       = prompt ++ join (map format_turn
                           (lastn c [("short", "s"); ("long turn", "long")]))
                ++ format_text "q"
    /\ ((c < 2)%nat ->
        fits char_tokenizer 710
          (join (map format_turn
                   (lastn c [("short", "s"); ("long turn", "long")]))
           ++ format_text "q")
          (nth c (rev (map format_turn
                         [("short", "s"); ("long turn", "long")])) "")
        = false).
Proof.
  apply (proj2 (history_walk_short_circuits "q"
                  [("short", "s"); ("long turn", "long")] char_tokenizer 710
                  (prompt ++ format_text "q")
                  (encode char_tokenizer (prompt ++ format_text "q"))
                  ltac:(vm_compute; reflexivity))).
Defined.

(** X17.  A returned prompt is within the budget when the history is
    empty, as in every call made by [answer_generation], and more generally
    when the tokenizer's count does not depend on the order of the two
    pieces that follow the preamble. *)
Theorem prompt_within_budget (text : string)
    (history : list (string * string)) (tokenizer : Tokenizer)
    (max_length : Z) (p : string) (ids : list nat) :
  generate_prompt_with_history text history tokenizer max_length
  = Some (p, ids) ->
  history = []
  \/ (forall a x, token_count tokenizer (prompt ++ a ++ x)
                  = token_count tokenizer (prompt ++ x ++ a)) ->
  (token_count tokenizer p <= max_length)%Z
  /\ Z.of_nat (List.length ids) = token_count tokenizer p.
Proof.
  intros H [->|Hsym].
  - rewrite generate_prompt_shape, walk_items_cons in H.
    cbn [map rev committed] in H. unfold fits in H. cbn [append] in H.
    destruct (token_count tokenizer (prompt ++ format_text text)
              <=? max_length)%Z eqn:E; [|discriminate].
    apply Z.leb_le in E. inversion H; subst.
    unfold lastn. cbn [skipn map join fold_right List.length Nat.sub append].
    split; [exact E|reflexivity].
  - destruct (prompt_within_budget_when_order_insensitive _ _ _ _ _ _ Hsym H)
      as [Hle ->].
    split; [exact Hle|reflexivity].
Qed.

Lemma char_count_app (s1 s2 : string) :
  List.length (list_ascii_of_string (s1 ++ s2))
  = (List.length (list_ascii_of_string s1)
     + List.length (list_ascii_of_string s2))%nat.
Proof.
  induction s1 as [|c s1 IH]; simpl; [reflexivity|]. now rewrite IH.
Qed.

Lemma char_tokenizer_order_insensitive (a x : string) :
  token_count char_tokenizer (prompt ++ a ++ x)
  = token_count char_tokenizer (prompt ++ x ++ a).
Proof.
  unfold token_count, char_tokenizer. cbn [encode].
  rewrite !length_map, !char_count_app. lia.
Qed.

Lemma prompt_within_budget_witness :
  (token_count char_tokenizer
     (prompt ++ format_turn ("Hi", "ok") ++ format_text "q") <= 2048)%Z.
Proof.
  apply (proj1 (prompt_within_budget "q" [("Hi", "ok")] char_tokenizer 2048
                  (prompt ++ format_turn ("Hi", "ok") ++ format_text "q")
                  (encode char_tokenizer
                     (prompt ++ format_turn ("Hi", "ok") ++ format_text "q"))
                  ltac:(vm_compute; reflexivity)
                  (or_intror char_tokenizer_order_insensitive))).
Defined.

Lemma replace_from_absent (old new s : string) :
  str_in old s = false -> replace_from 0 old new s = s.
Proof.
  induction s as [|c s IH]; intros H; [reflexivity|].
  cbn [str_in] in H. cbn [replace_from].
  destruct (String.prefix old (String c s)); [discriminate|].
  now rewrite IH.
Qed.

(** X18.  The post-processing of the script leaves an answer without a
    newline followed by [[|Human|]] as it is, and passes an exception of
    [answer_generation] on. *)
Theorem script_answer_without_marker (exp : Q -> Q) {KV : Type}
    (tokenizer : Tokenizer) (model : Model KV) (rng : nat -> Q)
    (base_model adapter_model question : string) (max_length : Z)
    (temperature top_p : Q) (top_k : Z) (max_context_length_tokens : Z) :
  (forall ans,
     answer_generation exp tokenizer model rng base_model adapter_model
       question max_length temperature top_p top_k max_context_length_tokens
     = Ok ans ->
     str_in (nl ++ "[|Human|]") ans = false ->
     script_answer exp tokenizer model rng base_model adapter_model question
       max_length temperature top_p top_k max_context_length_tokens
     = Ok ans)
  /\ (forall e,
        answer_generation exp tokenizer model rng base_model adapter_model
          question max_length temperature top_p top_k
          max_context_length_tokens
        = Raise e ->
        script_answer exp tokenizer model rng base_model adapter_model
          question max_length temperature top_p top_k
          max_context_length_tokens
        = Raise e).
Proof.
  split.
  - intros ans Ha Hn. unfold script_answer. rewrite Ha. cbn [result_map].
    f_equal. unfold replace.
    change (nl ++ "[|Human|]") with (String "010"%char "[|Human|]") in *.
    now apply replace_from_absent.
  - intros e Ha. unfold script_answer. now rewrite Ha.
Qed.

Lemma script_answer_without_marker_witness :
  script_answer exp_q char_tokenizer (emits "Fine.[|AI|]") (fun _ => 0%Q)
    "b" "a" "Hello" 2048 1 1 30 180
  = Ok "Fine.[|AI|]".
Proof.
  apply (proj1 (script_answer_without_marker exp_q char_tokenizer
                  (emits "Fine.[|AI|]") (fun _ => 0%Q) "b" "a" "Hello" 2048
                  1 1 30 180)).
  - vm_compute. reflexivity.
  - vm_compute. reflexivity.
Defined.

(** * Properties of [load_tokenizer_and_model] *)

(** X19.  Precision follows the device.  On the CPU no call asks for
    half precision, whatever [load_8bit].  Off the CPU the base model is
    loaded in [float16], and [model.half()] is called exactly when
    [load_8bit] is false.  The last call is always [model.eval()]. *)
Theorem precision_follows_device (cuda_available : bool)
    (mps_available : option bool) (base_model : string)
    (adapter_model : option string) (load_8bit : bool) :
  let calls := fst (load_tokenizer_and_model cuda_available mps_available
                      base_model adapter_model load_8bit) in
  let device := snd (load_tokenizer_and_model cuda_available mps_available
                       base_model adapter_model load_8bit) in
  (device = Cpu -> existsb uses_float16 calls = false)
  /\ (device <> Cpu ->
      exists kw, In (ModelFromPretrained base_model kw) calls
                 /\ model_float16 kw = true)
  /\ (device <> Cpu -> (In Half calls <-> load_8bit = false))
  /\ last calls Eval = Eval
  /\ (device = Mps <-> mps_available = Some true).
Proof.
  unfold load_tokenizer_and_model, select_device.
  destruct cuda_available, mps_available as [[|]|], adapter_model as [a|],
    load_8bit; cbn;
    (split; [|split; [|split; [|split]]]);
    try reflexivity.
  all: try (intros H; first [reflexivity | discriminate H]).
  all: try (intros H; first
              [ now elim H
              | eexists; split; [right; left; reflexivity|reflexivity] ]).
  all: try (intros H; first
              [ now elim H
              | split;
                [ intros Hin; first [reflexivity | intuition discriminate]
                | intros Hl; first [discriminate Hl | auto 10] ] ]).
  all: split; intros H; first [reflexivity | discriminate H].
Qed.

Lemma precision_follows_device_witness :
  existsb uses_float16
    (fst (load_tokenizer_and_model false None "decapoda-research/llama-7b-hf"
            (Some "project-baize/baize-healthcare-lora-7B") false)) = false.
Proof.
  apply (proj1 (precision_follows_device false None
                  "decapoda-research/llama-7b-hf"
                  (Some "project-baize/baize-healthcare-lora-7B") false)).
  reflexivity.
Defined.

(** X20.  [load_8bit] reaches [from_pretrained] only on CUDA.  On any
    other device no call asks for 8-bit weights even when [load_8bit] is
    true, and the calls for [load_8bit] true and false differ only by the
    [model.half()] that the false case adds. *)
Theorem load_8bit_only_on_cuda (cuda_available : bool)
    (mps_available : option bool) (base_model : string)
    (adapter_model : option string) :
  select_device cuda_available mps_available <> Cuda ->
  existsb asks_8bit
    (fst (load_tokenizer_and_model cuda_available mps_available base_model
            adapter_model true)) = false
  /\ filter (fun c => match c with Half => false | _ => true end)
       (fst (load_tokenizer_and_model cuda_available mps_available
               base_model adapter_model false))
     = fst (load_tokenizer_and_model cuda_available mps_available base_model
              adapter_model true).
Proof.
  unfold load_tokenizer_and_model, select_device.
  destruct cuda_available, mps_available as [[|]|], adapter_model as [a|];
    cbn; intros H; try (now elim H); split; reflexivity.
Qed.

Lemma load_8bit_only_on_cuda_witness :
  existsb asks_8bit
    (fst (load_tokenizer_and_model true (Some true)
            "decapoda-research/llama-7b-hf"
            (Some "project-baize/baize-healthcare-lora-7B") true)) = false.
Proof.
  apply (proj1 (load_8bit_only_on_cuda true (Some true)
                  "decapoda-research/llama-7b-hf"
                  (Some "project-baize/baize-healthcare-lora-7B")
                  ltac:(discriminate))).
Defined.

(** * Further properties of the filters *)

Local Open Scope Q_scope.

Lemma apply_top_p_nonneg (x : list Q) (top_p : Q) :
  Forall (fun p => 0 <= p) x ->
  Forall (fun p => 0 <= p) (apply_top_p x top_p).
Proof.
  intros Hx. apply Forall_forall. intros p Hp.
  destruct (In_nth _ _ 0 Hp) as (j & Hj & <-).
  rewrite length_apply_top_p in Hj. rewrite nth_apply_top_p by exact Hj.
  destruct (Qlt_bool top_p (nth j (cumsum x) 0 - nth j x 0)); [lra|].
  rewrite Forall_forall in Hx. apply Hx. now apply nth_In.
Qed.

Lemma apply_top_k_nonneg (x x' : list Q) (top_k : option Z) :
  Forall (fun p => 0 <= p) x ->
  apply_top_k x top_k = Ok x' ->
  Forall (fun p => 0 <= p) x'.
Proof.
  unfold apply_top_k. intros Hx H.
  destruct top_k as [k|]; [|now inversion H; subst].
  destruct (topk x k) as [x1|]; cbn [bind] in H; [|discriminate].
  destruct (torch_min x1) as [m|]; cbn [bind] in H; [|discriminate].
  inversion H; subst; clear H. unfold where_below.
  rewrite Forall_map. eapply Forall_impl; [|exact Hx].
  intros p Hp. simpl in Hp. destruct (Qlt_bool p m); lra.
Qed.

Lemma existsb_negative_of_nonneg (ws : list Q) :
  Forall (fun w => 0 <= w) ws ->
  existsb (fun p => Qlt_bool p 0) ws = false.
Proof.
  induction 1 as [|w ws Hw _ IH]; [reflexivity|]. simpl.
  apply Qlt_bool_false_iff in Hw. now rewrite Hw, IH.
Qed.

(** X21.  The converse of the failure on a degenerate distribution.
    With a non-negative exponential, whenever the filters leave a
    distribution whose sum is not zero, the renormalised weights are
    non-negative and sum to one, and the step returns a token. *)
Theorem nondegenerate_step_returns_token (exp : Q -> Q)
    (logits : list fval) (temperature top_p : Q) (top_k : option Z) (u : Q)
    (ps : list Q) (idx : list nat) :
  (forall q, 0 <= exp q) ->
  filtered_probs exp logits temperature top_p top_k = Ok (Some ps, idx) ->
  ~ Qsum ps == 0 ->
  exists ws t,
    div_sum ps = Some ws
    /\ Forall (fun w => 0 <= w) ws
    /\ Qsum ws == 1
    /\ sample_next_token exp logits temperature top_p top_k u = Ok t.
Proof.
  intros Hexp Hf Hne.
  assert (Hnn : Forall (fun p => 0 <= p) ps).
  { unfold filtered_probs in Hf.
    destruct (softmax exp (map (fun x => fdiv x temperature) logits))
      as [probs|] eqn:Hsm.
    - destruct (softmax_distribution exp Hexp _ _ Hsm) as (Hp & _ & _).
      destruct (torch_sort probs) as [s idx'] eqn:Ets.
      assert (Hs : Forall (fun p => 0 <= p) s).
      { replace s with (fst (torch_sort probs)) by now rewrite Ets.
        now apply torch_sort_nonneg. }
      destruct (apply_top_k (apply_top_p s top_p) top_k) as [ps'|] eqn:Hk;
        cbn [bind] in Hf; [|discriminate].
      inversion Hf; subst.
      eapply apply_top_k_nonneg; [|exact Hk]. now apply apply_top_p_nonneg.
    - destruct (top_k_of_nan _ top_k) as [[]|]; cbn [bind] in Hf;
        discriminate. }
  assert (Hs0 := Qsum_nonneg ps Hnn).
  assert (Hpos : 0 < Qsum ps) by lra.
  assert (Hd : div_sum ps = Some (map (fun p => p / Qsum ps) ps)).
  { unfold div_sum. destruct (Qeq_bool (Qsum ps) 0) eqn:E; [|reflexivity].
    apply Qeq_bool_iff in E. contradiction. }
  assert (Hw : Forall (fun w => 0 <= w) (map (fun p => p / Qsum ps) ps)).
  { rewrite Forall_map. eapply Forall_impl; [|exact Hnn].
    intros p Hp. simpl in Hp. apply Qle_shift_div_l; lra. }
  assert (H1 : Qsum (map (fun p => p / Qsum ps) ps) == 1).
  { rewrite Qsum_map_div. field. exact Hne. }
  set (ws := map (fun p => p / Qsum ps) ps) in *.
  exists ws, (gather idx (pick ws (u * Qsum ws))).
  repeat split; try assumption.
  unfold sample_next_token. rewrite Hf. cbn [bind]. rewrite Hd.
  unfold multinomial. rewrite (existsb_negative_of_nonneg ws Hw).
  destruct (Qeq_bool (Qsum ws) 0) eqn:E; [|reflexivity].
  apply Qeq_bool_iff in E. lra.
Qed.

Lemma nondegenerate_step_returns_token_witness :
  exists ws t,
    div_sum [1#2; 1#2] = Some ws
    /\ Forall (fun w => 0 <= w) ws
    /\ Qsum ws == 1
    /\ sample_next_token exp_q [Fin 0; Fin 0] 1 1 (Some 2%Z) 0 = Ok t.
Proof.
  apply (nondegenerate_step_returns_token exp_q [Fin 0; Fin 0] 1 1
           (Some 2%Z) 0 [1#2; 1#2]
           (snd (torch_sort [1#2; 1#2])) exp_q_nonneg eq_refl).
  discriminate.
Defined.

(** * The top-p filter under rounding *)

Local Open Scope Q_scope.


Lemma identity_rounding : Rounding (fun x => x).
Proof.
  split; intros; auto; reflexivity.
Qed.

(** Without rounding the running sums are the exact ones, and the filter
    is [apply_top_p]. *)
Lemma apply_top_p_with_identity (probs_sort : list Q) (top_p : Q) :
  apply_top_p_with (fun x => x) (fun x => x) (fun x => x) probs_sort top_p
  = apply_top_p probs_sort top_p.
Proof.
  unfold apply_top_p_with, apply_top_p, top_p_mask_with, top_p_mask,
    cumsum_with, cumsum.
  do 3 f_equal. rewrite map_id.
  generalize 0. induction probs_sort as [|x l IH]; intros a; simpl;
    [reflexivity|]. now rewrite IH.
Qed.



Section RoundedTopP.

Variables racc rnd rthr : Q -> Q.
Hypothesis Hacc : Rounding racc.
Hypothesis Hrnd : Rounding rnd.
Hypothesis Hthr : Rounding rthr.









End RoundedTopP.






(** * Unvalidated sampling parameters *)





